(** * go_cache: an in-process key/value cache with expiring entries

    A shallow embedding of package [cache] (type [Item], type [Cache] and
    its methods) and the properties of its specification.

    Conventions of the embedding:
    - [int64] and [time.Duration] values are [Z]; the one arithmetic
      operation of the package that can leave the 64-bit range
      ([time.Now().Add(d).UnixNano()]) has its wrap-around written out
      with [wrap64];
    - [map[string]Item] is a [gmap string Item], and a [range] loop over
      it visits its entries in an order that is a parameter;
    - a method of [*Cache] is a computation of the monad [M]: a function of
      the state of the world (the receiver, the wall clock, the file
      system) whose result says whether the call returned, parked on the
      mutex, panicked or hit a fatal runtime error;
    - [sync.RWMutex] is state of the receiver: [Lock] on a mutex that is
      held does not return;
    - every call of [time.Now()] takes the next reading of the clock, so
      time may pass between two readings of one method call;
    - [encoding/gob] is a parameter. *)

From Stdlib Require Import ZArith String List Lia.
From stdpp Require Import gmap strings list fin_maps.

Local Open Scope Z_scope.

(** ** Machine integers *)

Definition min_int64 : Z := - 2 ^ 63.
Definition max_int64 : Z := 2 ^ 63 - 1.

Definition is_int64 (z : Z) : Prop := min_int64 <= z <= max_int64.

(** Two's complement wrap-around of a 64-bit signed integer. *)
Definition wrap64 (z : Z) : Z := (z + 2 ^ 63) mod 2 ^ 64 - 2 ^ 63.

(** ** Errors and byte streams *)

(** [error] values of the package: the ones it builds with [fmt.Errorf]
    carry their message; the ones of [encoding/gob] and [os] are opaque. *)
Inductive error : Type :=
| Errorf (msg : string)
| GobError (code : nat)
| OsError (code : nat).

Definition bytes : Type := list Byte.byte.

(** [fmt.Errorf("item %s already exists", k)] *)
Definition DuplicateKey (k : string) : error :=
  Errorf (String.append "item " (String.append k " already exists")).

(** [fmt.Errorf("Item %s doesn`t exist", k)] *)
Definition MissingKey (k : string) : error :=
  Errorf (String.append "Item " (String.append k " doesn`t exist")).

(** The error [Save] returns when it recovers from a panic. *)
Definition ErrGobRegister : error :=
  Errorf "使用Gob库注册项类型时出错".

(** [const NoExpiration time.Duration = -1] *)
Definition NoExpiration : Z := -1.
(** [const DefaultExpiration time.Duration = 0] *)
Definition DefaultExpiration : Z := 0.

(** ** sync.RWMutex *)

Record RWMutex : Type := mkRWMutex {
  writer : bool;   (* held exclusively *)
  readers : nat    (* number of shared holders *)
}.

Definition unlocked : RWMutex := mkRWMutex false 0.
Definition locked : RWMutex := mkRWMutex true 0.

(** Calls of package [os] whose failure the environment decides. *)
Inductive OsCall : Type :=
| OsCreate (path : string)
| OsOpen (path : string)
| OsClose (path : string).

Section Cache.

(** The dynamic values stored in the cache; [interface{}] is [option V],
    with [None] the nil interface. *)
Context {V : Type}.

Definition interface : Type := option V.

(** [type Item struct { Object interface{}; Expiration int64 }] *)
Record Item : Type := mkItem {
  Object : interface;
  Expiration : Z
}.

(** [type Cache struct]; the channel [stopGc] only serves the sweeper
    goroutine and carries no data. *)
Record Cache : Type := mkCache {
  defaultExpiration : Z;
  items : gmap string Item;
  mu : RWMutex;
  gcInterval : Z
}.

(** The state a method call runs in: the receiver [self], the wall clock
    (the successive readings of [time.Now().UnixNano()], [ticks] of them
    consumed so far) and the file system ([files]: the content of each
    path, [opened]: the handles not yet closed, [os_err]: the calls the
    operating system refuses). *)
Record World : Type := mkWorld {
  self : Cache;
  clock : nat -> Z;
  ticks : nat;
  files : gmap string bytes;
  opened : list string;
  os_err : OsCall -> option error
}.

Definition set_self (c : Cache) (s : World) : World :=
  mkWorld c (clock s) (ticks s) (files s) (opened s) (os_err s).

Definition set_items (m : gmap string Item) (s : World) : World :=
  set_self (mkCache (defaultExpiration (self s)) m (mu (self s))
                    (gcInterval (self s))) s.

Definition set_mu (l : RWMutex) (s : World) : World :=
  set_self (mkCache (defaultExpiration (self s)) (items (self s)) l
                    (gcInterval (self s))) s.

Definition set_ticks (n : nat) (s : World) : World :=
  mkWorld (self s) (clock s) n (files s) (opened s) (os_err s).

Definition set_fs (fs : gmap string bytes) (op : list string) (s : World)
  : World :=
  mkWorld (self s) (clock s) (ticks s) fs op (os_err s).

(** The reading the next call of [time.Now().UnixNano()] returns. *)
Definition now (s : World) : Z := clock s (ticks s).

(** ** The monad of method calls *)

Inductive Res (A : Type) : Type :=
| Ret (a : A) (s : World)   (* the call returned [a] *)
| Block (s : World)         (* the goroutine is parked on the mutex *)
| Panic (s : World)         (* a panic is unwinding the stack *)
| Fatal (s : World).        (* fatal runtime error, not recoverable *)

Arguments Ret {A} a s.
Arguments Block {A} s.
Arguments Panic {A} s.
Arguments Fatal {A} s.

Definition M (A : Type) : Type := World -> Res A.

Definition ret {A} (a : A) : M A := fun s => Ret a s.

Definition bind {A B} (m : M A) (k : A -> M B) : M B := fun s =>
  match m s with
  | Ret a s' => k a s'
  | Block s' => Block s'
  | Panic s' => Panic s'
  | Fatal s' => Fatal s'
  end.

Local Notation "'do' x <- m ; k" := (bind m (fun x => k))
  (at level 10, x name, m at level 100, k at level 200).
Local Notation "'run' m ; k" := (bind m (fun _ => k))
  (at level 10, m at level 100, k at level 200).

Definition panic {A} : M A := fun s => Panic s.

(** [defer d] followed by [body]: [d] runs when [body] returns and when
    it panics; it does not run while the goroutine is parked. *)
Definition defer {A} (d : M unit) (body : M A) : M A := fun s =>
  match body s with
  | Ret a s' =>
      match d s' with
      | Ret _ s'' => Ret a s''
      | Block s'' => Block s''
      | Panic s'' => Panic s''
      | Fatal s'' => Fatal s''
      end
  | Panic s' =>
      match d s' with
      | Ret _ s'' => Panic s''
      | Block s'' => Block s''
      | Panic s'' => Panic s''
      | Fatal s'' => Fatal s''
      end
  | Block s' => Block s'
  | Fatal s' => Fatal s'
  end.

(** A deferred closure that calls [recover()] and, on a panic, sets the
    named result to [a]. *)
Definition recover_with {A} (a : A) (body : M A) : M A := fun s =>
  match body s with
  | Panic s' => Ret a s'
  | r => r
  end.

(** [for _, x := range l { body x }] over the entries in the order [l]. *)
Fixpoint for_range {A} (l : list A) (body : A -> M unit) : M unit :=
  match l with
  | [] => ret tt
  | x :: l' => run body x; for_range l' body
  end.

(** *** Primitive effects *)

Definition time_Now_UnixNano : M Z := fun s =>
  Ret (now s) (set_ticks (S (ticks s)) s).

Definition mu_Lock : M unit := fun s =>
  let l := mu (self s) in
  if writer l || negb (readers l =? 0)%nat then Block s
  else Ret tt (set_mu (mkRWMutex true 0) s).

Definition mu_Unlock : M unit := fun s =>
  let l := mu (self s) in
  if writer l then Ret tt (set_mu (mkRWMutex false (readers l)) s)
  else Fatal s.

Definition mu_RLock : M unit := fun s =>
  let l := mu (self s) in
  if writer l then Block s
  else Ret tt (set_mu (mkRWMutex false (S (readers l))) s).

Definition mu_RUnlock : M unit := fun s =>
  let l := mu (self s) in
  match readers l with
  | O => Fatal s
  | S n => Ret tt (set_mu (mkRWMutex (writer l) n) s)
  end.

Definition read_items : M (gmap string Item) := fun s =>
  Ret (items (self s)) s.

Definition write_items (m : gmap string Item) : M unit := fun s =>
  Ret tt (set_items m s).

(** ** Item *)

(** [func (item Item) Expired() bool] *)
Definition Item_Expired (item : Item) : M bool :=
  if Expiration item =? 0 then ret false
  else do t <- time_Now_UnixNano; ret (t >? Expiration item).

(** ** Package os *)

Fixpoint remove_first (x : string) (l : list string) : list string :=
  match l with
  | [] => []
  | y :: l' => if String.eqb x y then l' else y :: remove_first x l'
  end.

(** [os.Create(path)]: creates or truncates the file and returns a handle
    on it, here the path. *)
Definition os_Create (path : string) : M (string + error) := fun s =>
  match os_err s (OsCreate path) with
  | Some e => Ret (inr e) s
  | None => Ret (inl path) (set_fs (<[path := []]> (files s))
                                   (path :: opened s) s)
  end.

(** [os.Open(path)]: opens an existing file for reading. *)
Definition os_Open (path : string) : M (string + error) := fun s =>
  match os_err s (OsOpen path) with
  | Some e => Ret (inr e) s
  | None =>
      match files s !! path with
      | None => Ret (inr (OsError 2)) s
      | Some _ => Ret (inl path) (set_fs (files s) (path :: opened s) s)
      end
  end.

(** [f.Close()] *)
Definition File_Close (f : string) : M (option error) := fun s =>
  Ret (os_err s (OsClose f))
      (set_fs (files s) (remove_first f (opened s)) s).

(** What a reader of the handle [f] reads to the end of the file. *)
Definition File_contents (f : string) : M bytes := fun s =>
  Ret (default [] (files s !! f)) s.

(** ** Package encoding/gob, and the order of [range] over a map

    The library is not part of the repository: its three entry points
    are parameters. [gob_registrable v] says that [gob.Register(v)]
    returns (it panics otherwise); [gob_Encode m] is what
    [enc.Encode(&m)] writes and returns; [gob_Decode r] is what
    [dec.Decode(&items)] leaves in the empty map [items], or its error.

    [range_order m] is the order in which a [range] loop visits the
    entries of [m]; Go leaves it unspecified, so it is any enumeration of
    the entries. *)
Variable gob_registrable : interface -> bool.
Variable gob_Encode : gmap string Item -> bytes * option error.
Variable gob_Decode : bytes -> gmap string Item + error.
Variable range_order : gmap string Item -> list (string * Item).

Definition gob_Register (v : interface) : M unit :=
  if gob_registrable v then ret tt else panic.

(** ** Cache *)

(** [func (c *Cache) delete(k string)] *)
Definition Cache_delete (k : string) : M unit :=
  do m <- read_items; write_items (delete k m).

(** [func (c *Cache) DeleteExpired()] *)
Definition Cache_DeleteExpired : M unit :=
  do t <- time_Now_UnixNano;
  run mu_Lock;
  defer mu_Unlock
    (do m <- read_items;
     for_range (range_order m) (fun kv =>
       if (Expiration kv.2 >? 0) && (t >? Expiration kv.2)
       then Cache_delete kv.1
       else ret tt)).

(** [func (c *Cache) Set(k string, v interface{}, d time.Duration)].
    [time.Now().Add(d).UnixNano()] is the seconds and nanoseconds of the
    later instant put together in [int64] arithmetic: the reading of the
    clock plus [d], wrapped to 64 bits. *)
Definition Cache_Set (k : string) (v : interface) (d : Z) : M unit :=
  do c <- (fun s => Ret (self s) s);
  let d := if d =? DefaultExpiration then defaultExpiration c else d in
  do e <- (if d >? 0
           then do t <- time_Now_UnixNano; ret (wrap64 (t + d))
           else ret 0);
  run mu_Lock;
  defer mu_Unlock
    (do m <- read_items; write_items (<[k := mkItem v e]> m)).

(** [func (c *Cache) get(k string) (interface{}, bool)] *)
Definition Cache_get (k : string) : M (interface * bool) :=
  do m <- read_items;
  match m !! k with
  | None => ret (None, false)
  | Some item =>
      do e <- Item_Expired item;
      if e then ret (None, false) else ret (Object item, true)
  end.

(** [func (c *Cache) Add(k string, v interface{}, d time.Duration) error] *)
Definition Cache_Add (k : string) (v : interface) (d : Z)
  : M (option error) :=
  run mu_Lock;
  do r <- Cache_get k;
  if r.2 then
    run mu_Unlock;
    ret (Some (DuplicateKey k))
  else
    run Cache_Set k v d;
    run mu_Unlock;
    ret None.

(** [func (c *Cache) Get(k string) (interface{}, bool)] *)
Definition Cache_Get (k : string) : M (interface * bool) :=
  run mu_RLock;
  defer mu_RUnlock
    (do m <- read_items;
     match m !! k with
     | None => ret (None, false)
     | Some item =>
         do e <- Item_Expired item;
         if e then ret (None, false) else ret (Object item, true)
     end).

(** [func (c *Cache) Replace(k string, v interface{}, d time.Duration) error] *)
Definition Cache_Replace (k : string) (v : interface) (d : Z)
  : M (option error) :=
  run mu_Lock;
  do r <- Cache_get k;
  if negb r.2 then
    run mu_Unlock;
    ret (Some (MissingKey k))
  else
    run Cache_Set k v d;
    run mu_Unlock;
    ret None.

(** [func (c *Cache) Delete(k string)] *)
Definition Cache_Delete (k : string) : M unit :=
  run mu_Lock;
  run Cache_delete k;
  mu_Unlock.

(** [func (c *Cache) Save(w io.Writer) (err error)]: the result is what
    was written to [w] and the error returned. *)
Definition Cache_Save : M (bytes * option error) :=
  recover_with ([], Some ErrGobRegister)
    (run mu_RLock;
     defer mu_RUnlock
       (do m <- read_items;
        run for_range (range_order m) (fun kv => gob_Register (Object kv.2));
        ret (gob_Encode m))).

(** [func (c *Cache) SaveToFile(file string) error] *)
Definition Cache_SaveToFile (file : string) : M (option error) :=
  do r <- os_Create file;
  match r with
  | inr err => ret (Some err)
  | inl f => File_Close f
  end.

(** [func (c *Cache) Load(r io.Reader) error], on the bytes [r] yields. *)
Definition Cache_Load (r : bytes) : M (option error) :=
  match gob_Decode r with
  | inl decoded =>
      run mu_Lock;
      defer mu_Unlock
        (run for_range (range_order decoded) (fun kv =>
           do m <- read_items;
           match m !! kv.1 with
           | None => write_items (<[kv.1 := kv.2]> m)
           | Some ov =>
               do e <- Item_Expired ov;
               if e then write_items (<[kv.1 := kv.2]> m) else ret tt
           end);
         ret None)
  | inr err => ret (Some err)
  end.

(** [func (c *Cache) LoadFile(file string) error] *)
Definition Cache_LoadFile (file : string) : M (option error) :=
  do r <- os_Open file;
  match r with
  | inr err => ret (Some err)
  | inl f =>
      do content <- File_contents f;
      do err <- Cache_Load content;
      match err with
      | Some e => run File_Close f; ret (Some e)
      | None => File_Close f
      end
  end.

(** [func (c *Cache) Count() int] *)
Definition Cache_Count : M Z :=
  run mu_RLock;
  defer mu_RUnlock (do m <- read_items; ret (Z.of_nat (size m))).

(** [func (c *Cache) Flush()] *)
Definition Cache_Flush : M unit :=
  run mu_Lock;
  defer mu_Unlock (write_items ∅).

(** [func NewCache(defaultExpiration, gcInterval time.Duration) *Cache]:
    the store [c] it builds and returns. Its [go c.gcLoop()] starts the
    sweeper on that store, which is [Cache_gcLoop] below: it panics, and
    the process ends, when [gcInterval] is not positive, and otherwise
    calls [DeleteExpired] on every tick. A property of a store from
    [NewCache] therefore takes a positive [gcInterval] and the passes of
    its sweeper into account. *)
Definition NewCache (defaultExpiration gcInterval : Z) : Cache :=
  mkCache defaultExpiration ∅ unlocked gcInterval.

(** ** Closed forms

    What the methods above compute, written without the monad; the
    lemmas named [_run] below prove each equal to its method. *)

(** The value [item.Expired()] returns when the clock reads [t]; see
    [Item_Expired_run]. *)
Definition expired_at (t : Z) (item : Item) : bool :=
  negb (Expiration item =? 0) && (t >? Expiration item).

(** The world after one call of [Expired] on [item]: the clock is read
    unless the expiration is 0. *)
Definition after_Expired (item : Item) (s : World) : World :=
  if Expiration item =? 0 then s else set_ticks (S (ticks s)) s.

(** What [get] and [Get] return for the entry [o] found under the key
    when the clock reads [t]. *)
Definition lookup_result (t : Z) (o : option Item) : interface * bool :=
  match o with
  | None => (None, false)
  | Some item =>
      if expired_at t item then (None, false) else (Object item, true)
  end.

(** The test of the sweep, and the map its loop leaves when it visits the
    entries [l] of the map [m] with the clock reading [t]. *)
Definition swept (t : Z) (item : Item) : bool :=
  (Expiration item >? 0) && (t >? Expiration item).

Definition sweep (t : Z) (l : list (string * Item)) (m : gmap string Item)
  : gmap string Item :=
  foldl (fun m kv => if swept t kv.2 then delete kv.1 m else m) m l.

(** The duration [Set] works with after its first [if], and the
    expiration it stores when the clock reads [t]. *)
Definition Set_duration (c : Cache) (d : Z) : Z :=
  if d =? DefaultExpiration then defaultExpiration c else d.

Definition Set_expiration (c : Cache) (d t : Z) : Z :=
  if Set_duration c d >? 0 then wrap64 (t + Set_duration c d) else 0.

(** The world after the clock reading of [Set], if it takes one. *)
Definition after_Set_clock (d : Z) (s : World) : World :=
  if Set_duration (self s) d >? 0 then set_ticks (S (ticks s)) s else s.

(** The body of the loop of [Load], for the decoded entry [kv]. *)
Definition merge_entry (kv : string * Item) : M unit :=
  do m <- read_items;
  match m !! kv.1 with
  | None => write_items (<[kv.1 := kv.2]> m)
  | Some ov =>
      do e <- Item_Expired ov;
      if e then write_items (<[kv.1 := kv.2]> m) else ret tt
  end.

(** Two receivers that differ at most in their entry maps. *)
Definition same_but_items (c c' : Cache) : Prop :=
  mu c' = mu c /\ defaultExpiration c' = defaultExpiration c /\
  gcInterval c' = gcInterval c.

(** ** Calls of other goroutines

    Every method that reads or writes the receiver, as a call whose result
    is dropped; the sweeper goroutine calls [DeleteExpired]. ([StopGc]
    only sends on the channel.) *)
Inductive Call : Type :=
| CallDeleteExpired
| CallSet (k : string) (v : interface) (d : Z)
| CallAdd (k : string) (v : interface) (d : Z)
| CallGet (k : string)
| CallReplace (k : string) (v : interface) (d : Z)
| CallDelete (k : string)
| CallSave
| CallSaveToFile (file : string)
| CallLoad (r : bytes)
| CallLoadFile (file : string)
| CallCount
| CallFlush.

Definition ignore {A} (m : M A) : M unit := do _ <- m; ret tt.

Definition call (c : Call) : M unit :=
  match c with
  | CallDeleteExpired => Cache_DeleteExpired
  | CallSet k v d => Cache_Set k v d
  | CallAdd k v d => ignore (Cache_Add k v d)
  | CallGet k => ignore (Cache_Get k)
  | CallReplace k v d => ignore (Cache_Replace k v d)
  | CallDelete k => Cache_Delete k
  | CallSave => ignore Cache_Save
  | CallSaveToFile file => ignore (Cache_SaveToFile file)
  | CallLoad r => ignore (Cache_Load r)
  | CallLoadFile file => ignore (Cache_LoadFile file)
  | CallCount => ignore Cache_Count
  | CallFlush => Cache_Flush
  end.

(** The worlds other goroutines can bring about from [s] with calls of
    the methods, each of which returns or parks. *)
Inductive reachable (s : World) : World -> Prop :=
| reachable_refl : reachable s s
| reachable_call (c : Call) (s1 s2 : World) :
    reachable s s1 ->
    call c s1 = Ret tt s2 \/ call c s1 = Block s2 ->
    reachable s s2.

(** ** The sweeper *)

(** What the [select] of [gcLoop] receives: a tick from [ticker.C], or the
    value a caller of [StopGc] sends on [stopGc]. *)
Inductive Event : Type :=
| Tick
| Stop.

(** [time.NewTicker(d)] panics when [d] is not positive. *)
Definition time_NewTicker (d : Z) : M unit :=
  if d <=? 0 then panic else ret tt.

(** The [for { select { ... } }] of [gcLoop] on the successive receives
    [events]: a tick runs [DeleteExpired], the stop value ends the loop;
    with no receive left the goroutine stays parked in the [select]. *)
Fixpoint gcLoop_select (events : list Event) : M unit :=
  match events with
  | [] => fun s => Block s
  | Tick :: events' => run Cache_DeleteExpired; gcLoop_select events'
  | Stop :: _ => ret tt
  end.

(** [func (c *Cache) gcLoop()] *)
Definition Cache_gcLoop (events : list Event) : M unit :=
  do c <- (fun s => Ret (self s) s);
  run time_NewTicker (gcInterval c);
  gcLoop_select events.

(** [n] passes of the sweeper, one after the other. *)
Fixpoint sweeper_passes (n : nat) : M unit :=
  match n with
  | O => ret tt
  | S n' => run Cache_DeleteExpired; sweeper_passes n'
  end.

(** Whether one of the [n] passes that read the clock [clk] at the ticks
    [from], [from + 1], ... removes [item]. *)
Definition swept_by (clk : nat -> Z) (from n : nat) (item : Item) : bool :=
  existsb (fun i => swept (clk i) item) (seq from n).

End Cache.

Arguments Ret {V A} a s.
Arguments Block {V A} s.
Arguments Panic {V A} s.
Arguments Fatal {V A} s.
Arguments Item : clear implicits.
Arguments Cache : clear implicits.
Arguments World : clear implicits.
Arguments Call : clear implicits.

Notation "'do' x <- m ; k" := (bind m (fun x => k))
  (at level 10, x name, m at level 100, k at level 200).
Notation "'run' m ; k" := (bind m (fun _ => k))
  (at level 10, m at level 100, k at level 200).
Arguments mkItem {V} Object Expiration.
Arguments mkCache {V} defaultExpiration items mu gcInterval.
Arguments mkWorld {V} self clock ticks files opened os_err.

(** * Example instances

    A store of string values, a small binary codec for its entry maps
    (a count, then per entry the key, the value and the expiration as 8
    little-endian bytes; strings are prefixed by their length) and worlds
    whose clock always reads the same time. The properties below are
    stated for every codec and every [range] order; these instances show
    them at concrete inputs. *)
Module Example.

Definition byte_of_Z (z : Z) : Byte.byte :=
  default Byte.x00 (Byte.of_N (Z.to_N (z mod 256))).
Definition Z_of_byte (b : Byte.byte) : Z := Z.of_N (Byte.to_N b).

Fixpoint put_le (n : nat) (z : Z) : bytes :=
  match n with
  | O => []
  | S n' => byte_of_Z z :: put_le n' (z / 256)
  end.

Fixpoint get_le (bs : bytes) : Z :=
  match bs with
  | [] => 0
  | b :: bs' => Z_of_byte b + 256 * get_le bs'
  end.

Definition put_string (x : string) : bytes :=
  let bs := list_byte_of_string x in
  put_le 1 (Z.of_nat (length bs)) ++ bs.

Definition put_item (item : Item string) : bytes :=
  match Object item with
  | None => [Byte.x00]
  | Some x => Byte.x01 :: put_string x
  end ++ put_le 8 (Expiration item).

Definition short (x : string) : bool := (String.length x <? 256)%nat.

Definition encodable (kv : string * Item string) : bool :=
  short kv.1 && match Object kv.2 with None => true | Some x => short x end.

Definition encode (m : gmap string (Item string)) : bytes * option error :=
  let l := map_to_list m in
  if forallb encodable l && (length l <? 256)%nat
  then (put_le 1 (Z.of_nat (length l)) ++
        flat_map (fun kv => put_string kv.1 ++ put_item kv.2) l, None)
  else ([], Some (GobError 1)).

Definition Parser (A : Type) : Type := bytes -> option (A * bytes).

Definition get_bytes (n : nat) : Parser bytes := fun bs =>
  if (n <=? length bs)%nat then Some (firstn n bs, skipn n bs) else None.

Definition get_string : Parser string := fun bs =>
  match bs with
  | [] => None
  | b :: bs' =>
      match get_bytes (Z.to_nat (Z_of_byte b)) bs' with
      | Some (x, rest) => Some (string_of_list_byte x, rest)
      | None => None
      end
  end.

Definition get_item : Parser (Item string) := fun bs =>
  match bs with
  | [] => None
  | tag :: bs' =>
      match (if Byte.eqb tag Byte.x00 then Some (None, bs')
             else match get_string bs' with
                  | Some (x, rest) => Some (Some x, rest)
                  | None => None
                  end) with
      | Some (v, rest) =>
          match get_bytes 8 rest with
          | Some (e, rest') => Some (mkItem v (wrap64 (get_le e)), rest')
          | None => None
          end
      | None => None
      end
  end.

Fixpoint get_entries (n : nat) : Parser (list (string * Item string)) :=
  fun bs =>
  match n with
  | O => Some ([], bs)
  | S n' =>
      match get_string bs with
      | Some (k, rest) =>
          match get_item rest with
          | Some (item, rest') =>
              match get_entries n' rest' with
              | Some (l, rest'') => Some ((k, item) :: l, rest'')
              | None => None
              end
          | None => None
          end
      | None => None
      end
  end.

Definition decode (bs : bytes) : gmap string (Item string) + error :=
  match bs with
  | [] => inr (GobError 2)
  | b :: rest =>
      match get_entries (Z.to_nat (Z_of_byte b)) rest with
      | Some (l, []) => inl (list_to_map l)
      | _ => inr (GobError 2)
      end
  end.

Definition registrable (v : @interface string) : bool :=
  match v with None => false | Some _ => true end.

(** A world whose store holds [m], with the mutex free, and whose clock
    reads [t]; the file system is empty and no call of [os] fails. *)
Definition world (m : gmap string (Item string)) (t : Z) : World string :=
  mkWorld (mkCache 0 m unlocked 0) (fun _ => t) 0 ∅ [] (fun _ => None).

(** [{"a": {"x", 10}}]: one entry that expires at time 10. *)
Definition expiring_entry : gmap string (Item string) :=
  {[ "a"%string := mkItem (Some "x"%string) 10 ]}.

(** Three entries: expiring at 10, never, and expiring at 30. *)
Definition three_entries : gmap string (Item string) :=
  <["a"%string := mkItem (Some "x"%string) 10]>
    (<["b"%string := mkItem (Some "y"%string) 0]>
       (<["c"%string := mkItem (Some "z"%string) 30]> ∅)).

(** [{"a": {"y", 0}}]: what the stream of the [Load] example holds. *)
Definition loaded_entry : gmap string (Item string) :=
  {[ "a"%string := mkItem (Some "y"%string) 0 ]}.

Definition two_entries : gmap string (Item string) :=
  <["a"%string := mkItem (Some "x"%string) 0]>
    (<["b"%string := mkItem (Some "y"%string) 1500]> ∅).

End Example.

(** * The demonstration program

    [func main()] of the sample: it prints two lines, returned here as
    its result. The sweeper that [NewCache] starts runs beside it:
    [n0], [n1] and [n2] are the numbers of passes the sweeper makes
    before [Set], between [Set] and the first [Get], and between the two
    calls of [Get] (where [main] sleeps). *)
Module Sample.

(** [time.ParseDuration] of "0.5h", "3s", "5s" and "10s", in
    nanoseconds. *)
Definition half_hour : Z := 1800000000000.
Definition three_seconds : Z := 3000000000.
Definition five_seconds : Z := 5000000000.
Definition ten_seconds : Z := 10000000000.

Definition k1 : string := "hello ,I am pasca".

(** The line [fmt.Println(a, v)] prints for a string [a] and a value [v]
    that is a string or nil. *)
Definition Println (a : string) (v : @interface string) : string :=
  String.append a
    (String.append " " match v with Some x => x | None => "<nil>" end).

Definition main
    (range_order : gmap string (Item string) -> list (string * Item string))
    (n0 n1 n2 : nat) : M (list string) :=
  run (fun s => Ret tt (set_self (NewCache half_hour three_seconds) s));
  run sweeper_passes range_order n0;
  run Cache_Set "k1" (Some k1) five_seconds;
  run sweeper_passes range_order n1;
  do r1 <- Cache_Get "k1";
  let line1 := if r1.2 then Println "found k1:" r1.1 else "not found k1" in
  run sweeper_passes range_order n2;
  do r2 <- Cache_Get "k1";
  let line2 := if r2.2 then Println "Found k1:" r2.1 else "not found k1" in
  ret [line1; line2]%string.

(** A clock for the sample: it starts at 1.8e18 ns and every reading is
    4 s after the one before. *)
Definition ticking_clock (i : nat) : Z :=
  1800000000000000000 + 4000000000 * Z.of_nat i.

(** The world [main] starts in. *)
Definition world : World string :=
  mkWorld (NewCache 0 0) ticking_clock 0 ∅ [] (fun _ => None).

End Sample.

(** * More example instances *)
Module Example2.

(** As [Example.world], with a sweep interval of 3 s. *)
Definition sweeping_world (m : gmap string (Item string)) (t : Z)
  : World string :=
  mkWorld (mkCache 0 m unlocked 3000000000) (fun _ => t) 0 ∅ []
          (fun _ => None).

(** The world [s] seen when the clock reads [t]. *)
Definition at_time (t : Z) (s : World string) : World string :=
  mkWorld (self s) (fun _ => t) 0 (files s) (opened s) (os_err s).

(** [{"a": {nil, 0}}]: an entry whose value is the nil interface. *)
Definition nil_entry : gmap string (Item string) :=
  {[ "a"%string := mkItem None 0 ]}.

(** A world with an empty store and the file "cache.gob" holding the
    encoding of [Example.two_entries]. *)
Definition world_with_file : World string :=
  mkWorld (mkCache 0 ∅ unlocked 0) (fun _ => 5) 0
          {[ "cache.gob"%string := (Example.encode Example.two_entries).1 ]}
          [] (fun _ => None).

(** [{"a": {"x", -5}}]: an entry whose expiration is negative. *)
Definition negative_entry : gmap string (Item string) :=
  {[ "a"%string := mkItem (Some "x"%string) (-5) ]}.

End Example2.

(** * An instance with an unexported field

    The values are structs [struct { Name string; secret string }].
    Following the documentation of [encoding/gob], the encoder transmits
    the exported fields of a struct only, and the decoder leaves the
    fields it did not receive at their zero value. *)
Module Unexported.

Record T : Type := mkT { Name : string; secret : string }.

(** What the encoder transmits of an entry, and the entry the decoder
    builds from it. *)
Definition transmitted (item : Item T) : Item string :=
  mkItem (Name <$> Object item) (Expiration item).

Definition received (item : Item string) : Item T :=
  mkItem ((fun x => mkT x "") <$> Object item) (Expiration item).

Definition encode (m : gmap string (Item T)) : bytes * option error :=
  Example.encode (transmitted <$> m).

Definition decode (bs : bytes) : gmap string (Item T) + error :=
  match Example.decode bs with
  | inl m => inl (received <$> m)
  | inr err => inr err
  end.

Definition registrable (v : @interface T) : bool :=
  match v with None => false | Some _ => true end.

(** A world whose store holds [m], with the mutex free and a sweep
    interval of 3 s, and whose clock reads [t]. *)
Definition world (m : gmap string (Item T)) (t : Z) : World T :=
  mkWorld (mkCache 0 m unlocked 3000000000) (fun _ => t) 0 ∅ []
          (fun _ => None).


End Unexported.

(** * Properties *)

Section Properties.

Context {V : Type}.
Variable gob_registrable : @interface V -> bool.
Variable gob_Encode : gmap string (Item V) -> bytes * option error.
Variable gob_Decode : bytes -> gmap string (Item V) + error.
Variable range_order : gmap string (Item V) -> list (string * Item V).

(** A [range] loop visits every entry of the map exactly once. *)
Hypothesis range_order_perm :
  forall m : gmap string (Item V), range_order m ≡ₚ map_to_list m.

Implicit Types (s : World V) (item : Item V) (k : string) (v : @interface V)
  (m : gmap string (Item V)).

(** ** The state *)

Lemma set_items_id s : set_items (items (self s)) s = s.
Proof. destruct s as [[? ? ? ?] ? ? ? ? ?]; reflexivity. Qed.

Ltac world s :=
  destruct s as [[?de ?m [?w ?r] ?gi] ?clk ?tk ?fs ?op ?oe]; simpl in *.

Ltac run_m :=
  unfold Cache_Get, Cache_Count, Cache_Set, Cache_get, Cache_Add,
    Cache_Replace, Cache_Delete, Cache_delete, Cache_Flush, Item_Expired,
    bind, ret, defer, recover_with, panic, ignore,
    mu_Lock, mu_Unlock, mu_RLock, mu_RUnlock, read_items, write_items,
    time_Now_UnixNano, set_mu, set_items, set_ticks, set_self, now;
  simpl.

(** ** Item.Expired *)

Lemma Item_Expired_run item s :
  Item_Expired item s =
  Ret (expired_at (now s) item)
      (if Expiration item =? 0 then s else set_ticks (S (ticks s)) s).
Proof.
  unfold Item_Expired, expired_at.
  destruct (Expiration item =? 0); reflexivity.
Qed.

Lemma expired_at_true t item :
  expired_at t item = true <-> Expiration item ≠ 0 ∧ t > Expiration item.
Proof.
  unfold expired_at.
  rewrite andb_true_iff, negb_true_iff, Z.eqb_neq, Z.gtb_gt. reflexivity.
Qed.

Lemma expired_at_false t item :
  expired_at t item = false <-> Expiration item = 0 ∨ t <= Expiration item.
Proof.
  unfold expired_at.
  rewrite andb_false_iff, negb_false_iff, Z.eqb_eq, Z.gtb_ltb, Z.ltb_ge.
  reflexivity.
Qed.

(** C8 (what the code does). [Expired] returns, leaves the receiver
    alone, and its result is true exactly when the expiration is not 0
    and the clock reading is greater than it. For an expiration that is
    not negative this is "expiration > 0 and now > expiration", and an
    entry whose expiration is 0 is never reported expired; an entry whose
    expiration is negative is reported expired, which the test
    "expiration > 0 and now > expiration" of [DeleteExpired] does not
    do. *)
Theorem Item_Expired_nonzero_and_past item s :
  ∃ b s', Item_Expired item s = Ret b s' ∧ self s' = self s ∧
    (b = true <-> Expiration item ≠ 0 ∧ now s > Expiration item) ∧
    (0 <= Expiration item ->
       (b = true <-> Expiration item > 0 ∧ now s > Expiration item)) ∧
    (Expiration item = 0 -> b = false).
Proof.
  rewrite Item_Expired_run. eexists _, _. split; [reflexivity|].
  split; [destruct (Expiration item =? 0); reflexivity|].
  split; [apply expired_at_true|].
  split.
  - intros Hnn. rewrite expired_at_true. lia.
  - intros H0. apply expired_at_false. auto.
Qed.

Lemma self_after_Expired item s : self (after_Expired item s) = self s.
Proof. unfold after_Expired. destruct (_ =? _); reflexivity. Qed.

Lemma self_after_Set_clock d s : self (after_Set_clock d s) = self s.
Proof. unfold after_Set_clock. destruct (_ >? _); reflexivity. Qed.

(** ** The methods, as equations *)

Lemma Cache_get_run k s :
  Cache_get k s =
  Ret (lookup_result (now s) (items (self s) !! k))
      (match items (self s) !! k with
       | None => s
       | Some item => after_Expired item s
       end).
Proof.
  unfold Cache_get, lookup_result, read_items, bind.
  destruct (items (self s) !! k) as [item|]; [|reflexivity].
  rewrite Item_Expired_run. unfold after_Expired.
  destruct (expired_at (now s) item); reflexivity.
Qed.

Lemma Cache_Get_run k s :
  writer (mu (self s)) = false ->
  Cache_Get k s =
  Ret (lookup_result (now s) (items (self s) !! k))
      (match items (self s) !! k with
       | None => s
       | Some item => after_Expired item s
       end).
Proof.
  intros Hw. world s. subst w. unfold lookup_result, after_Expired, expired_at.
  run_m. destruct (m !! k) as [item|]; [|reflexivity].
  run_m. destruct (Expiration item =? 0); run_m; [reflexivity|].
  destruct (clk tk >? Expiration item); reflexivity.
Qed.

Lemma Cache_Count_run s :
  writer (mu (self s)) = false ->
  Cache_Count s = Ret (Z.of_nat (size (items (self s)))) s.
Proof. intros Hw. world s. subst w. reflexivity. Qed.

Lemma Cache_Set_run k v d s :
  mu (self s) = unlocked ->
  Cache_Set k v d s =
  Ret tt (set_items (<[k := mkItem v (Set_expiration (self s) d (now s))]>
                       (items (self s)))
                    (after_Set_clock d s)).
Proof.
  intros Hmu. world s. injection Hmu as -> ->.
  unfold Cache_Set, after_Set_clock, Set_expiration, Set_duration, bind.
  simpl. destruct ((if d =? DefaultExpiration then de else d) >? 0);
    reflexivity.
Qed.

Lemma Cache_Set_held k v d s :
  writer (mu (self s)) = true ->
  Cache_Set k v d s = Block (after_Set_clock d s).
Proof.
  intros Hw. world s. subst w.
  unfold Cache_Set, after_Set_clock, Set_duration, bind.
  simpl. destruct ((if d =? DefaultExpiration then de else d) >? 0);
    reflexivity.
Qed.

Lemma Cache_Add_run k v d s :
  mu (self s) = unlocked ->
  let s1 := match items (self s) !! k with
            | None => set_mu locked s
            | Some item => after_Expired item (set_mu locked s)
            end in
  Cache_Add k v d s =
  if (lookup_result (now s) (items (self s) !! k)).2
  then Ret (Some (DuplicateKey k)) (set_mu unlocked s1)
  else Block (after_Set_clock d s1).
Proof.
  intros Hmu s1. unfold Cache_Add, bind at 1.
  assert (Hl : mu_Lock s = Ret tt (set_mu locked s)).
  { unfold mu_Lock. rewrite Hmu. reflexivity. }
  rewrite Hl. unfold bind at 1. rewrite Cache_get_run.
  change (now (set_mu locked s)) with (now s).
  change (items (self (set_mu locked s))) with (items (self s)).
  fold s1.
  assert (Hs1 : mu (self s1) = locked).
  { subst s1. destruct (_ !! k); [rewrite self_after_Expired|]; reflexivity. }
  clearbody s1.
  destruct (lookup_result (now s) (items (self s) !! k)) as [o []]; simpl.
  - unfold bind, mu_Unlock. rewrite Hs1. reflexivity.
  - unfold bind. rewrite Cache_Set_held; [reflexivity|]. rewrite Hs1.
    reflexivity.
Qed.

Lemma Cache_Replace_run k v d s :
  mu (self s) = unlocked ->
  let s1 := match items (self s) !! k with
            | None => set_mu locked s
            | Some item => after_Expired item (set_mu locked s)
            end in
  Cache_Replace k v d s =
  if (lookup_result (now s) (items (self s) !! k)).2
  then Block (after_Set_clock d s1)
  else Ret (Some (MissingKey k)) (set_mu unlocked s1).
Proof.
  intros Hmu s1. unfold Cache_Replace, bind at 1.
  assert (Hl : mu_Lock s = Ret tt (set_mu locked s)).
  { unfold mu_Lock. rewrite Hmu. reflexivity. }
  rewrite Hl. unfold bind at 1. rewrite Cache_get_run.
  change (now (set_mu locked s)) with (now s).
  change (items (self (set_mu locked s))) with (items (self s)).
  fold s1.
  assert (Hs1 : mu (self s1) = locked).
  { subst s1. destruct (_ !! k); [rewrite self_after_Expired|]; reflexivity. }
  clearbody s1.
  destruct (lookup_result (now s) (items (self s) !! k)) as [o []]; simpl.
  - unfold bind. rewrite Cache_Set_held; [reflexivity|]. rewrite Hs1.
    reflexivity.
  - unfold bind, mu_Unlock. rewrite Hs1. reflexivity.
Qed.

Lemma self_unlock_after_check (o : option (Item V)) s :
  mu (self s) = unlocked ->
  self (set_mu unlocked
          match o with
          | None => set_mu locked s
          | Some item => after_Expired item (set_mu locked s)
          end) = self s.
Proof.
  intros Hmu. world s. injection Hmu as -> ->.
  destruct o as [item|]; [|reflexivity].
  unfold after_Expired. destruct (Expiration item =? 0); reflexivity.
Qed.

Lemma self_parked_after_check (o : option (Item V)) d s :
  self (after_Set_clock d
          match o with
          | None => set_mu locked s
          | Some item => after_Expired item (set_mu locked s)
          end) = self (set_mu locked s).
Proof.
  rewrite self_after_Set_clock.
  destruct o as [item|]; [apply self_after_Expired|reflexivity].
Qed.

(** C5 (what the code does). When the mutex is free: on a key with a live
    entry [Add] returns the duplicate-key error and leaves the receiver
    as it was; on a key with no entry or an expired one [Add] does not
    return: it parks with the mutex held and the entry map as it was, so
    nothing is stored. *)
Theorem Add_duplicate_or_parks k v d s :
  mu (self s) = unlocked ->
  (∀ item, items (self s) !! k = Some item ->
     expired_at (now s) item = false ->
     ∃ s', Cache_Add k v d s = Ret (Some (DuplicateKey k)) s' ∧
       self s' = self s) ∧
  ((∀ item, items (self s) !! k = Some item ->
      expired_at (now s) item = true) ->
     ∃ s', Cache_Add k v d s = Block s' ∧
       mu (self s') = locked ∧ items (self s') = items (self s)).
Proof.
  intros Hmu. pose proof (Cache_Add_run k v d s Hmu) as HA. cbv zeta in HA.
  unfold lookup_result in HA. split.
  - intros item Hk Hlive. rewrite Hk, Hlive in HA. cbn [snd] in HA.
    eexists. split; [exact HA|].
    apply (self_unlock_after_check (Some item) s Hmu).
  - intros Hk. destruct (items (self s) !! k) as [item|].
    + rewrite (Hk item eq_refl) in HA. cbn [snd] in HA.
      eexists. split; [exact HA|].
      rewrite (self_parked_after_check (Some item) d s). split; reflexivity.
    + cbn [snd] in HA. eexists. split; [exact HA|].
      rewrite (self_parked_after_check None d s). split; reflexivity.
Qed.

(** C6 (what the code does). When the mutex is free: on a key with no
    entry or an expired one [Replace] returns the missing-key error and
    leaves the receiver as it was, so no entry is created; on a key with a
    live entry [Replace] does not return: it parks with the mutex held and
    the entry map as it was, so the value is not replaced. *)
Theorem Replace_missing_or_parks k v d s :
  mu (self s) = unlocked ->
  ((∀ item, items (self s) !! k = Some item ->
      expired_at (now s) item = true) ->
     ∃ s', Cache_Replace k v d s = Ret (Some (MissingKey k)) s' ∧
       self s' = self s) ∧
  (∀ item, items (self s) !! k = Some item ->
     expired_at (now s) item = false ->
     ∃ s', Cache_Replace k v d s = Block s' ∧
       mu (self s') = locked ∧ items (self s') = items (self s)).
Proof.
  intros Hmu. pose proof (Cache_Replace_run k v d s Hmu) as HR.
  cbv zeta in HR. unfold lookup_result in HR. split.
  - intros Hk. destruct (items (self s) !! k) as [item|].
    + rewrite (Hk item eq_refl) in HR. cbn [snd] in HR.
      eexists. split; [exact HR|].
      apply (self_unlock_after_check (Some item) s Hmu).
    + cbn [snd] in HR. eexists. split; [exact HR|].
      apply (self_unlock_after_check None s Hmu).
  - intros item Hk Hlive. rewrite Hk, Hlive in HR. cbn [snd] in HR.
    eexists. split; [exact HR|].
    rewrite (self_parked_after_check (Some item) d s). split; reflexivity.
Qed.

(** ** A mutex held exclusively *)

Local Abbreviation call' :=
  (call gob_registrable gob_Encode gob_Decode range_order).
Local Abbreviation reachable' :=
  (reachable gob_registrable gob_Encode gob_Decode range_order).

Lemma Cache_Load_held r s :
  writer (mu (self s)) = true ->
  Cache_Load gob_Decode range_order r s =
  match gob_Decode r with
  | inl _ => Block s
  | inr err => Ret (Some err) s
  end.
Proof.
  intros Hw. unfold Cache_Load. destruct (gob_Decode r); [|reflexivity].
  unfold bind, mu_Lock. rewrite Hw. reflexivity.
Qed.

(** While the mutex is held exclusively, a call of any method by another
    goroutine returns or parks, and leaves the receiver as it is. *)
Lemma call_held (c : Call V) s :
  writer (mu (self s)) = true ->
  ∃ s', (call' c s = Ret tt s' ∨ call' c s = Block s') ∧ self s' = self s.
Proof.
  intros Hw. destruct c as [|k v d|k v d|k|k v d|k| |file|r|file| |]; unfold call.
  - world s. subst w. eexists. split; [right; reflexivity|reflexivity].
  - rewrite Cache_Set_held by exact Hw.
    eexists. split; [right; reflexivity|apply self_after_Set_clock].
  - world s. subst w. eexists. split; [right; reflexivity|reflexivity].
  - world s. subst w. eexists. split; [right; reflexivity|reflexivity].
  - world s. subst w. eexists. split; [right; reflexivity|reflexivity].
  - world s. subst w. eexists. split; [right; reflexivity|reflexivity].
  - world s. subst w. eexists. split; [right; reflexivity|reflexivity].
  - world s. subst w.
    unfold ignore, Cache_SaveToFile, os_Create, File_Close, bind, ret, set_fs.
    simpl. destruct (oe (OsCreate file));
      (eexists; split; [left; reflexivity|reflexivity]).
  - world s. subst w. unfold ignore, Cache_Load, bind.
    destruct (gob_Decode r);
      eexists; (split; [(left; reflexivity) || (right; reflexivity)
                       |reflexivity]).
  - world s. subst w.
    unfold ignore, Cache_LoadFile, os_Open, File_contents, File_Close, bind.
    cbn -[Cache_Load].
    destruct (oe (OsOpen file));
      [eexists; split; [left; reflexivity|reflexivity]|].
    destruct (fs !! file) as [content|] eqn:Hf; cbn -[Cache_Load];
      [|eexists; split; [left; reflexivity|reflexivity]].
    rewrite Cache_Load_held by reflexivity.
    destruct (gob_Decode _); cbn;
      eexists; (split; [(left; reflexivity) || (right; reflexivity)
                       |reflexivity]).
  - world s. subst w. eexists. split; [right; reflexivity|reflexivity].
  - world s. subst w. eexists. split; [right; reflexivity|reflexivity].
Qed.

(** So the receiver, and with it the mutex, stays as it is whatever the
    other goroutines call. *)
Lemma reachable_held s s' :
  writer (mu (self s)) = true -> reachable' s s' -> self s' = self s.
Proof.
  intros Hw Hr. induction Hr as [|c s1 s2 _ IH Hc]; [reflexivity|].
  destruct (call_held c s1) as (s3 & Hs3 & Hself).
  { rewrite IH. exact Hw. }
  rewrite <- IH, <- Hself.
  destruct Hc as [Hc|Hc], Hs3 as [Hs3|Hs3]; congruence.
Qed.

(** C2. When the mutex is free, [Add] and [Replace] take it, run the
    existence check and, on their success paths ([Add]: no live entry
    found, [Replace]: a live entry found), call [Set] with the mutex still
    held. [Set] parks on that mutex, so the call parks instead of
    returning, and no call of another goroutine ever releases the mutex. *)
Theorem Add_Replace_hold_lock_across_Set k v d s :
  mu (self s) = unlocked ->
  ∃ r s1 s',
    (run mu_Lock; Cache_get k) s = Ret r s1 ∧
    mu (self s1) = locked ∧ items (self s1) = items (self s) ∧
    (r.2 = false ->
       Cache_Add k v d s =
       (run Cache_Set k v d; run mu_Unlock; ret None) s1) ∧
    (r.2 = true ->
       Cache_Replace k v d s =
       (run Cache_Set k v d; run mu_Unlock; ret None) s1) ∧
    Cache_Set k v d s1 = Block s' ∧ self s' = self s1 ∧
    (r.2 = false -> Cache_Add k v d s = Block s') ∧
    (r.2 = true -> Cache_Replace k v d s = Block s') ∧
    (∀ s'', reachable' s' s'' -> mu (self s'') = locked).
Proof.
  intros Hmu.
  pose proof (Cache_Add_run k v d s Hmu) as HA.
  pose proof (Cache_Replace_run k v d s Hmu) as HR.
  cbv zeta in HA, HR.
  set (s1 := match items (self s) !! k with
             | None => set_mu locked s
             | Some item => after_Expired item (set_mu locked s)
             end) in *.
  assert (Hself : self s1 = self (set_mu locked s)).
  { subst s1. destruct (_ !! k); [apply self_after_Expired|reflexivity]. }
  assert (Hget : (run mu_Lock; Cache_get k) s =
                 Ret (lookup_result (now s) (items (self s) !! k)) s1).
  { unfold bind, mu_Lock. rewrite Hmu. simpl. rewrite Cache_get_run.
    reflexivity. }
  assert (Hset : Cache_Set k v d s1 = Block (after_Set_clock d s1)).
  { apply Cache_Set_held. rewrite Hself. reflexivity. }
  exists (lookup_result (now s) (items (self s) !! k)), s1,
    (after_Set_clock d s1).
  split; [exact Hget|].
  split; [rewrite Hself; reflexivity|].
  split; [rewrite Hself; reflexivity|].
  split.
  { intros Hr. rewrite HA, Hr. unfold bind at 1. rewrite Hset. reflexivity. }
  split.
  { intros Hr. rewrite HR, Hr. unfold bind at 1. rewrite Hset. reflexivity. }
  split; [exact Hset|].
  split; [apply self_after_Set_clock|].
  split; [intros Hr; rewrite HA, Hr; reflexivity|].
  split; [intros Hr; rewrite HR, Hr; reflexivity|].
  intros s'' Hreach. apply reachable_held in Hreach.
  - rewrite Hreach, self_after_Set_clock, Hself. reflexivity.
  - rewrite self_after_Set_clock, Hself. reflexivity.
Qed.

(** C9. While no writer holds the mutex, [Get] returns and leaves the
    receiver, and so its entry map, exactly as it was. It reports
    not-found when the key is absent and when [Expired] reports its entry
    expired (in particular when the expiration is positive and in the
    past); the entry stays in the map, and [Count] returns the same number
    after the call as before. *)
Theorem Get_not_found_and_frame k s :
  writer (mu (self s)) = false ->
  ∃ r s' n, Cache_Get k s = Ret r s' ∧
    self s' = self s ∧
    (items (self s) !! k = None -> r = (None, false)) ∧
    (∀ item s1, items (self s) !! k = Some item ->
       Item_Expired item s = Ret true s1 -> r = (None, false)) ∧
    (∀ item, items (self s) !! k = Some item ->
       Expiration item > 0 -> now s > Expiration item -> r = (None, false)) ∧
    (∀ item s1, items (self s) !! k = Some item ->
       Item_Expired item s = Ret false s1 -> r = (Object item, true)) ∧
    (∃ s1, Cache_Count s = Ret n s1) ∧ (∃ s2, Cache_Count s' = Ret n s2) ∧
    n = Z.of_nat (size (items (self s))).
Proof.
  intros Hw. rewrite (Cache_Get_run k s Hw).
  set (s' := match items (self s) !! k with
             | None => s
             | Some item => after_Expired item s
             end).
  assert (Hs' : self s' = self s).
  { subst s'. destruct (_ !! k); [apply self_after_Expired|reflexivity]. }
  exists (lookup_result (now s) (items (self s) !! k)), s',
    (Z.of_nat (size (items (self s)))).
  split; [reflexivity|]. split; [exact Hs'|].
  split; [intros ->; reflexivity|].
  split.
  { intros item s1 -> He. rewrite Item_Expired_run in He.
    injection He as He _. simpl. rewrite He. reflexivity. }
  split.
  { intros item -> Hpos Hpast. simpl.
    replace (expired_at (now s) item) with true; [reflexivity|].
    symmetry. apply expired_at_true. lia. }
  split.
  { intros item s1 -> He. rewrite Item_Expired_run in He.
    injection He as He _. simpl. rewrite He. reflexivity. }
  split; [exists s; apply Cache_Count_run, Hw|].
  split; [|reflexivity].
  exists s'. rewrite <- Hs'. apply Cache_Count_run. rewrite Hs'. exact Hw.
Qed.

(** ** Set *)

Lemma wrap64_id z : is_int64 z -> wrap64 z = z.
Proof.
  unfold is_int64, min_int64, max_int64, wrap64. intros Hz.
  rewrite Z.mod_small; lia.
Qed.

Lemma one_entry_per_key (l : list (string * Item V)) k item :
  NoDup l.*1 -> (k, item) ∈ l ->
  length (filter (λ kv, kv.1 = k) l) = 1%nat.
Proof.
  induction l as [|[k' x] l IH]; intros Hnd Hin.
  - inversion Hin.
  - apply NoDup_cons in Hnd as [Hk' Hnd]. simpl in Hk'.
    rewrite filter_cons. simpl. destruct (decide (k' = k)) as [->|Hne].
    + simpl. f_equal.
      destruct (filter (λ kv, kv.1 = k) l) as [|[k2 x2] l'] eqn:Hf;
        [reflexivity|].
      assert (Hin2 : (k2, x2) ∈ filter (λ kv : string * Item V, kv.1 = k) l)
        by (rewrite Hf; apply elem_of_cons; auto).
      apply list_elem_of_filter in Hin2 as [Heq Hin2]. simpl in Heq.
      subst k2. exfalso. apply Hk'. apply list_elem_of_fmap.
      exists (k, x2). auto.
    + apply IH; [exact Hnd|].
      apply elem_of_cons in Hin as [Heq|Hin]; [congruence|exact Hin].
Qed.

(** C7 (amended). When the mutex is free, [Set] returns and the entry
    map is the old one with the entry of [k] replaced by the value and an
    expiration [e] fixed at that moment: 0 for the "no expiration"
    sentinel; for a positive [d], the clock reading of the call plus [d]
    wrapped to 64 bits, which is the reading plus [d] whenever that sum is
    an [int64]. The other keys keep their entries, the map holds exactly
    one entry for [k], and a later [Get] of any key leaves the stored
    entry as it is. *)
Theorem Set_stores_expiration k v d s :
  mu (self s) = unlocked ->
  ∃ e s', Cache_Set k v d s = Ret tt s' ∧
    items (self s') = <[k := mkItem v e]> (items (self s)) ∧
    mu (self s') = unlocked ∧
    (d = NoExpiration -> e = 0) ∧
    (d > 0 -> e = wrap64 (now s + d)) ∧
    (d > 0 -> is_int64 (now s + d) -> e = now s + d) ∧
    (∀ k', k' ≠ k -> items (self s') !! k' = items (self s) !! k') ∧
    length (filter (λ kv, kv.1 = k) (map_to_list (items (self s')))) = 1%nat ∧
    (∀ k' r s'', Cache_Get k' s' = Ret r s'' ->
       items (self s'') !! k = Some (mkItem v e)).
Proof.
  intros Hmu. rewrite (Cache_Set_run k v d s Hmu).
  set (e := Set_expiration (self s) d (now s)).
  assert (Hpos : d > 0 -> e = wrap64 (now s + d)).
  { intros Hd. subst e. unfold Set_expiration, Set_duration, DefaultExpiration.
    destruct (d =? 0) eqn:H0; [apply Z.eqb_eq in H0; lia|].
    destruct (d >? 0) eqn:Hgt; [reflexivity|].
    rewrite Z.gtb_ltb in Hgt. apply Z.ltb_ge in Hgt. lia. }
  set (s' := set_items (<[k:=mkItem v e]> (items (self s)))
                       (after_Set_clock d s)).
  assert (Hmu' : mu (self s') = unlocked).
  { subst s'. simpl. rewrite self_after_Set_clock. exact Hmu. }
  assert (Hit : items (self s') = <[k:=mkItem v e]> (items (self s)))
    by reflexivity.
  clearbody s'. exists e, s'. split; [reflexivity|].
  split; [exact Hit|]. split; [exact Hmu'|].
  split; [intros ->; reflexivity|].
  split; [exact Hpos|].
  split; [intros Hd Hr; rewrite Hpos, wrap64_id by assumption; reflexivity|].
  split; [intros k' Hne; rewrite Hit; apply lookup_insert_ne; congruence|].
  split.
  { rewrite Hit. apply one_entry_per_key with (item := mkItem v e).
    - apply NoDup_fst_map_to_list.
    - apply elem_of_map_to_list, lookup_insert_eq. }
  intros k' r s'' HG.
  rewrite Cache_Get_run in HG by (rewrite Hmu'; reflexivity).
  injection HG as _ <-.
  destruct (_ !! k'); [rewrite self_after_Expired|];
    rewrite Hit; apply lookup_insert_eq.
Qed.

(** ** DeleteExpired *)

Lemma swept_true t item :
  swept t item = true <-> 0 < Expiration item ∧ Expiration item < t.
Proof.
  unfold swept. rewrite andb_true_iff, !Z.gtb_gt. lia.
Qed.

Lemma sweep_cons t kv (l : list (string * Item V)) m :
  sweep t (kv :: l) m =
  sweep t l (if swept t kv.2 then delete kv.1 m else m).
Proof. reflexivity. Qed.

Lemma sweep_loop_run t (l : list (string * Item V)) s :
  for_range l (fun kv =>
    if (Expiration kv.2 >? 0) && (t >? Expiration kv.2)
    then Cache_delete kv.1 else ret tt) s =
  Ret tt (set_items (sweep t l (items (self s))) s).
Proof.
  revert s. induction l as [|[k item] l IH]; intros s; cbn [for_range].
  - unfold ret, sweep. simpl. rewrite set_items_id. reflexivity.
  - unfold bind at 1. rewrite sweep_cons. cbn [fst snd].
    fold (swept t item). destruct (swept t item).
    + unfold Cache_delete, bind, read_items, write_items. rewrite IH.
      reflexivity.
    + unfold ret at 1. rewrite IH. reflexivity.
Qed.

Lemma sweep_lookup_None t (l : list (string * Item V)) m k :
  m !! k = None -> sweep t l m !! k = None.
Proof.
  revert m. induction l as [|[k' item] l IH]; intros m Hm; [exact Hm|].
  rewrite sweep_cons. simpl. apply IH. destruct (swept t item); [|exact Hm].
  apply lookup_delete_None. auto.
Qed.

Lemma sweep_lookup_kept t (l : list (string * Item V)) m k :
  (∀ item, (k, item) ∈ l -> swept t item = false) ->
  sweep t l m !! k = m !! k.
Proof.
  revert m. induction l as [|[k' item] l IH]; intros m Hl; [reflexivity|].
  rewrite sweep_cons. simpl.
  rewrite IH by (intros it Hin; apply Hl, elem_of_cons; auto).
  destruct (swept t item) eqn:Hsw; [|reflexivity].
  apply lookup_delete_ne. intros ->.
  rewrite Hl in Hsw by (apply elem_of_cons; auto). discriminate.
Qed.

Lemma sweep_lookup_swept t (l : list (string * Item V)) m k item :
  (k, item) ∈ l -> swept t item = true -> sweep t l m !! k = None.
Proof.
  revert m. induction l as [|[k' item'] l IH]; intros m Hin Hsw.
  - inversion Hin.
  - rewrite sweep_cons. simpl.
    apply elem_of_cons in Hin as [Heq|Hin]; [|apply IH; assumption].
    injection Heq as <- <-. rewrite Hsw.
    apply sweep_lookup_None, lookup_delete_eq.
Qed.

Lemma sweep_range_order t m :
  sweep t (range_order m) m =
  filter (λ kv, ¬ (0 < Expiration kv.2 ∧ Expiration kv.2 < t)) m.
Proof.
  assert (Hin : ∀ k item, (k, item) ∈ range_order m <-> m !! k = Some item).
  { intros k item. rewrite range_order_perm. apply elem_of_map_to_list. }
  apply map_eq. intros k. symmetry.
  destruct (m !! k) as [item|] eqn:Hk.
  - destruct (swept t item) eqn:Hsw.
    + rewrite (sweep_lookup_swept t _ m k item) by (try apply Hin; assumption).
      apply map_lookup_filter_None. right. intros item' Hk' Hn. simpl in Hn.
      apply Hn. apply swept_true. congruence.
    + rewrite sweep_lookup_kept, Hk.
      * apply map_lookup_filter_Some. split; [exact Hk|]. simpl.
        rewrite <- swept_true. congruence.
      * intros item' Hin'. apply Hin in Hin'. congruence.
  - rewrite sweep_lookup_None by exact Hk.
    apply map_lookup_filter_None. left. exact Hk.
Qed.

Lemma Cache_DeleteExpired_run s :
  mu (self s) = unlocked ->
  Cache_DeleteExpired range_order s =
  Ret tt (set_items
            (filter (λ kv, ¬ (0 < Expiration kv.2 ∧ Expiration kv.2 < now s))
                    (items (self s)))
            (set_ticks (S (ticks s)) s)).
Proof.
  intros Hmu. unfold Cache_DeleteExpired, bind at 1, time_Now_UnixNano.
  unfold bind at 1, mu_Lock. simpl. rewrite Hmu. simpl.
  unfold defer, bind at 1, read_items. rewrite sweep_loop_run. simpl.
  rewrite sweep_range_order. unfold mu_Unlock. simpl.
  world s. injection Hmu as -> ->. reflexivity.
Qed.

(** C10. When the mutex is free, one pass of [DeleteExpired] returns
    with the mutex free again and leaves exactly the entries that are not
    expired at the clock reading of the pass, expired meaning
    "expiration > 0 and now > expiration": an entry whose expiration is
    positive and in the past is no longer in the map nor counted by
    [Count]; every entry whose expiration is 0 and every entry that is
    not expired in that sense is still there, unchanged. *)
Theorem DeleteExpired_removes_positive_past s :
  mu (self s) = unlocked ->
  ∃ s', Cache_DeleteExpired range_order s = Ret tt s' ∧
    mu (self s') = unlocked ∧
    items (self s') =
      filter (λ kv, ¬ (0 < Expiration kv.2 ∧ Expiration kv.2 < now s))
             (items (self s)) ∧
    (∀ k item, items (self s) !! k = Some item ->
       0 < Expiration item -> Expiration item < now s ->
       items (self s') !! k = None) ∧
    (∀ k item, items (self s) !! k = Some item ->
       Expiration item <= 0 ∨ now s <= Expiration item ->
       items (self s') !! k = Some item) ∧
    (∀ k, items (self s) !! k = None -> items (self s') !! k = None) ∧
    Cache_Count s' = Ret (Z.of_nat (size (items (self s')))) s' ∧
    (size (items (self s')) <= size (items (self s)))%nat.
Proof.
  intros Hmu. rewrite (Cache_DeleteExpired_run s Hmu).
  eexists. split; [reflexivity|]. simpl.
  split; [exact Hmu|]. split; [reflexivity|].
  split.
  { intros k item Hk Hpos Hpast. apply map_lookup_filter_None. right.
    intros item' Hk' Hn. simpl in Hn. apply Hn. split; congruence. }
  split.
  { intros k item Hk Hkeep. apply map_lookup_filter_Some.
    split; [exact Hk|]. simpl. lia. }
  split.
  { intros k Hk. apply map_lookup_filter_None. left. exact Hk. }
  split.
  { apply Cache_Count_run. simpl. rewrite Hmu. reflexivity. }
  apply map_size_filter.
Qed.

(** ** Load *)

Lemma merge_entry_run k (x : Item V) s :
  merge_entry (k, x) s =
  match items (self s) !! k with
  | None => Ret tt (set_items (<[k := x]> (items (self s))) s)
  | Some ov =>
      Ret tt (set_items (if expired_at (now s) ov
                         then <[k := x]> (items (self s))
                         else items (self s))
                        (after_Expired ov s))
  end.
Proof.
  unfold merge_entry, bind at 1, read_items. cbn [fst snd].
  destruct (items (self s) !! k) as [ov|]; [|reflexivity].
  unfold bind. rewrite Item_Expired_run.
  destruct (expired_at (now s) ov).
  - unfold write_items, after_Expired.
    destruct (Expiration ov =? 0); reflexivity.
  - unfold ret. rewrite <- (self_after_Expired ov s).
    rewrite set_items_id. reflexivity.
Qed.

Lemma ticks_after_Expired item s :
  (ticks s <= ticks (after_Expired item s) <= S (ticks s))%nat.
Proof. unfold after_Expired. destruct (_ =? _); simpl; lia. Qed.

Lemma merge_loop_run (l : list (string * Item V)) s :
  NoDup l.*1 ->
  ∃ m' n, for_range l merge_entry s = Ret tt (set_items m' (set_ticks n s)) ∧
    (ticks s <= n)%nat ∧
    (∀ k, k ∉ l.*1 -> m' !! k = items (self s) !! k) ∧
    (∀ k (x : Item V), (k, x) ∈ l ->
       match items (self s) !! k with
       | None => m' !! k = Some x
       | Some ov =>
           ∃ i, (ticks s <= i <= n)%nat ∧
             m' !! k = Some (if expired_at (clock s i) ov then x else ov)
       end).
Proof.
  revert s. induction l as [|[k x] l IH]; intros s Hnd.
  - exists (items (self s)), (ticks s). split; [|split; [lia|split]].
    + cbn [for_range]. unfold ret. f_equal.
      world s. reflexivity.
    + reflexivity.
    + intros k x Hin. inversion Hin.
  - apply NoDup_cons in Hnd as [Hk Hnd]. cbn [fmap list_fmap fst] in Hk.
    cbn [for_range]. unfold bind. rewrite merge_entry_run.
    set (m := items (self s)).
    set (s1 := match m !! k with
               | None => set_items (<[k := x]> m) s
               | Some ov => set_items (if expired_at (now s) ov
                                       then <[k := x]> m else m)
                                      (after_Expired ov s)
               end).
    replace (match m !! k with
             | None => Ret tt (set_items (<[k := x]> m) s)
             | Some ov => Ret tt (set_items (if expired_at (now s) ov
                                             then <[k := x]> m else m)
                                            (after_Expired ov s))
             end) with (Ret tt s1 : Res unit)
      by (subst s1; destruct (m !! k); reflexivity).
    destruct (IH s1 Hnd) as (m' & n & Hrun & Hn & Hout & Hin).
    assert (Hframe : ∀ m2 n2, set_items m2 (set_ticks n2 s1) =
                              set_items m2 (set_ticks n2 s)).
    { intros m2 n2. subst s1. destruct (m !! k) as [ov|]; [|reflexivity].
      unfold after_Expired. destruct (Expiration ov =? 0); reflexivity. }
    assert (Hclock : clock s1 = clock s).
    { subst s1. destruct (m !! k) as [ov|]; [|reflexivity].
      unfold after_Expired. destruct (Expiration ov =? 0); reflexivity. }
    assert (Hticks : (ticks s <= ticks s1)%nat).
    { subst s1. destruct (m !! k) as [ov|]; [|simpl; lia].
      simpl. apply ticks_after_Expired. }
    assert (Hother : ∀ k', k' ≠ k -> items (self s1) !! k' = m !! k').
    { intros k' Hne. subst s1. destruct (m !! k) as [ov|]; simpl.
      - destruct (expired_at (now s) ov);
          [apply lookup_insert_ne; congruence|reflexivity].
      - apply lookup_insert_ne; congruence. }
    assert (Hthis : items (self s1) !! k =
                    match m !! k with
                    | None => Some x
                    | Some ov =>
                        Some (if expired_at (now s) ov then x else ov)
                    end).
    { subst s1. destruct (m !! k) as [ov|] eqn:Hmk; simpl.
      - destruct (expired_at (now s) ov);
          [apply lookup_insert_eq|exact Hmk].
      - apply lookup_insert_eq. }
    clearbody s1.
    exists m', n. rewrite Hrun, Hframe.
    split; [reflexivity|]. split; [lia|]. split.
    + intros k' Hk'. cbn [fmap list_fmap fst] in Hk'.
      apply not_elem_of_cons in Hk' as [Hne Hk'].
      rewrite Hout by exact Hk'. apply Hother, Hne.
    + intros k' x' Hin'. apply elem_of_cons in Hin' as [Heq|Hin'].
      * injection Heq as -> ->. rewrite Hout, Hthis by exact Hk.
        destruct (m !! k) as [ov|]; [|reflexivity].
        exists (ticks s). split; [lia|reflexivity].
      * assert (Hne : k' ≠ k).
        { intros ->. apply Hk, list_elem_of_fmap. exists (k, x'). auto. }
        specialize (Hin k' x' Hin'). rewrite Hother in Hin by exact Hne.
        destruct (m !! k') as [ov|]; [|exact Hin].
        destruct Hin as (i & Hi & Hl). exists i. rewrite <- Hclock.
        split; [lia|exact Hl].
Qed.

Lemma range_order_NoDup m : NoDup (range_order m).*1.
Proof. rewrite range_order_perm. apply NoDup_fst_map_to_list. Qed.

Lemma elem_of_range_order m k (x : Item V) :
  (k, x) ∈ range_order m <-> m !! k = Some x.
Proof. rewrite range_order_perm. apply elem_of_map_to_list. Qed.

Lemma Cache_Load_run r decoded s :
  gob_Decode r = inl decoded ->
  mu (self s) = unlocked ->
  ∃ m' n,
    Cache_Load gob_Decode range_order r s =
      Ret None (set_items m' (set_ticks n s)) ∧
    (ticks s <= n)%nat ∧
    ∀ k, match decoded !! k, items (self s) !! k with
         | None, o => m' !! k = o
         | Some x, None => m' !! k = Some x
         | Some x, Some ov =>
             ∃ i, (ticks s <= i <= n)%nat ∧
               m' !! k = Some (if expired_at (clock s i) ov then x else ov)
         end.
Proof.
  intros Hdec Hmu. unfold Cache_Load. rewrite Hdec.
  unfold bind at 1, mu_Lock. rewrite Hmu. cbn [writer readers unlocked].
  cbn [orb negb Nat.eqb]. unfold defer, bind at 1.
  change (for_range (range_order decoded) _ (set_mu {| writer := true; readers := 0 |} s))
    with (for_range (range_order decoded) merge_entry (set_mu locked s)).
  destruct (merge_loop_run (range_order decoded) (set_mu locked s)
              (range_order_NoDup decoded)) as (m' & n & Hrun & Hn & Hout & Hin).
  rewrite Hrun. exists m', n. split; [|split; [exact Hn|]].
  - unfold ret, mu_Unlock. simpl. world s. injection Hmu as -> ->.
    reflexivity.
  - intros k. destruct (decoded !! k) as [x|] eqn:Hk.
    + apply elem_of_range_order in Hk. apply Hin in Hk. exact Hk.
    + apply Hout. intros Hin'. apply list_elem_of_fmap in Hin' as ([k' x] & -> & Hin').
      apply elem_of_range_order in Hin'. simpl in Hk. congruence.
Qed.

(** C3 (what the code does). If decoding fails, [Load] returns the
    decoder's error and the world, the entry map included, is as before. If it succeeds and the
    mutex is free, [Load] returns nil with the mutex free again, and for
    every key: a key the decoded map lacks keeps what it had; a decoded
    key the store lacks gets the decoded entry; a decoded key the store
    has gets the decoded entry if [Expired] reported the live entry
    expired at the clock reading of its check (taken during the call),
    and keeps the live entry otherwise. [Expired] is the method of
    [Item]: it also reports an entry with a negative expiration expired,
    so such an entry is replaced. *)
Theorem Load_merges_absent_or_expired r s :
  (∀ err, gob_Decode r = inr err ->
     Cache_Load gob_Decode range_order r s = Ret (Some err) s) ∧
  (∀ decoded, gob_Decode r = inl decoded -> mu (self s) = unlocked ->
     ∃ s', Cache_Load gob_Decode range_order r s = Ret None s' ∧
       mu (self s') = unlocked ∧ (ticks s <= ticks s')%nat ∧
       ∀ k, match decoded !! k, items (self s) !! k with
            | None, o => items (self s') !! k = o
            | Some x, None => items (self s') !! k = Some x
            | Some x, Some ov =>
                ∃ i, (ticks s <= i <= ticks s')%nat ∧
                  items (self s') !! k =
                  Some (if expired_at (clock s i) ov then x else ov)
            end).
Proof.
  split.
  - intros err Hdec. unfold Cache_Load. rewrite Hdec. reflexivity.
  - intros decoded Hdec Hmu.
    destruct (Cache_Load_run r decoded s Hdec Hmu) as (m' & n & Hrun & Hn & Hm').
    eexists. split; [exact Hrun|]. simpl.
    split; [exact Hmu|]. split; [exact Hn|exact Hm'].
Qed.

(** ** Save *)

Lemma register_loop_run (l : list (string * Item V)) s :
  for_range l (fun kv => gob_Register gob_registrable (Object kv.2)) s =
  if forallb (fun kv => gob_registrable (Object kv.2)) l
  then Ret tt s else Panic s.
Proof.
  induction l as [|[k x] l IH]; [reflexivity|].
  cbn [for_range forallb fst snd]. unfold bind, gob_Register.
  destruct (gob_registrable (Object x)); [exact IH|reflexivity].
Qed.

Lemma Cache_Save_run s :
  writer (mu (self s)) = false ->
  Cache_Save gob_registrable gob_Encode range_order s =
  Ret (if forallb (fun kv => gob_registrable (Object kv.2))
                  (range_order (items (self s)))
       then gob_Encode (items (self s))
       else ([], Some ErrGobRegister)) s.
Proof.
  intros Hw. unfold Cache_Save, recover_with, bind at 1, mu_RLock.
  rewrite Hw. unfold defer, bind at 1, read_items. unfold bind.
  rewrite register_loop_run. cbn [self items set_mu set_self].
  destruct (forallb _ _); unfold ret, mu_RUnlock; simpl;
    world s; subst w; reflexivity.
Qed.

(** ** SaveToFile *)

Lemma remove_first_head f (l : list string) : remove_first f (f :: l) = l.
Proof. simpl. rewrite String.eqb_refl. reflexivity. Qed.

(** C1 (what the code does). When the operating system lets the file be
    created, [SaveToFile] returns what [Close] returns, with the file
    empty whatever the entry map holds, the handle closed and the store
    untouched: [Save] is not called. *)
Theorem SaveToFile_leaves_file_empty file s :
  os_err s (OsCreate file) = None ->
  ∃ s', Cache_SaveToFile file s = Ret (os_err s (OsClose file)) s' ∧
    files s' !! file = Some [] ∧
    opened s' = opened s ∧
    self s' = self s.
Proof.
  intros Hc. unfold Cache_SaveToFile, bind, os_Create. rewrite Hc.
  unfold File_Close. eexists. split; [reflexivity|]. simpl.
  split; [apply lookup_insert_eq|].
  split; [apply remove_first_head|reflexivity].
Qed.

(** * Further properties of the methods *)

(** ** Delete and Flush *)

Lemma Cache_Delete_run k s :
  mu (self s) = unlocked ->
  Cache_Delete k s = Ret tt (set_items (delete k (items (self s))) s).
Proof.
  intros Hmu. world s. injection Hmu as -> ->. reflexivity.
Qed.

Lemma Cache_Flush_run s :
  mu (self s) = unlocked ->
  Cache_Flush s = Ret tt (set_items ∅ s).
Proof.
  intros Hmu. world s. injection Hmu as -> ->. reflexivity.
Qed.

(** X1. When the mutex is free, [Delete] returns with the mutex free
    again; the key has no entry afterwards (so [Get] does not find it and
    [Count] is one less when it had one), every other key keeps its entry,
    and deleting an absent key changes nothing at all. *)
Theorem Delete_removes_only_its_key k s :
  mu (self s) = unlocked ->
  ∃ s', Cache_Delete k s = Ret tt s' ∧
    mu (self s') = unlocked ∧
    items (self s') !! k = None ∧
    (∀ k', k' ≠ k -> items (self s') !! k' = items (self s) !! k') ∧
    (items (self s) !! k = None -> s' = s) ∧
    (∀ item, items (self s) !! k = Some item ->
       Cache_Count s = Ret (Z.of_nat (size (items (self s')) + 1)) s) ∧
    Cache_Count s' = Ret (Z.of_nat (size (items (self s')))) s' ∧
    Cache_Get k s' = Ret (None, false) s'.
Proof.
  intros Hmu. rewrite (Cache_Delete_run k s Hmu).
  set (s' := set_items (delete k (items (self s))) s).
  assert (Hit : items (self s') = delete k (items (self s))) by reflexivity.
  assert (Hmu' : mu (self s') = unlocked) by exact Hmu.
  assert (Hw' : writer (mu (self s')) = false) by (rewrite Hmu'; reflexivity).
  exists s'. split; [reflexivity|]. split; [exact Hmu'|].
  split; [rewrite Hit; apply lookup_delete_eq|].
  split; [intros k' Hne; rewrite Hit; apply lookup_delete_ne; congruence|].
  split.
  { intros Hk. subst s'. rewrite delete_id by exact Hk. apply set_items_id. }
  split.
  { intros item Hk. rewrite Cache_Count_run by (rewrite Hmu; reflexivity).
    rewrite Hit. do 2 f_equal.
    rewrite <- (insert_delete_id (items (self s)) k item Hk) at 1.
    rewrite map_size_insert_None by apply lookup_delete_eq. lia. }
  split; [apply Cache_Count_run, Hw'|].
  rewrite (Cache_Get_run k s' Hw'), Hit, lookup_delete_eq. reflexivity.
Qed.

(** X2. When the mutex is free, [Flush] returns and leaves the receiver
    as [NewCache] builds it from the same two durations: no entry is
    left, [Count] is 0 and [Get] finds no key. *)
Theorem Flush_empties_store s :
  mu (self s) = unlocked ->
  ∃ s', Cache_Flush s = Ret tt s' ∧
    self s' = NewCache (defaultExpiration (self s)) (gcInterval (self s)) ∧
    Cache_Count s' = Ret 0 s' ∧
    (∀ k, Cache_Get k s' = Ret (None, false) s').
Proof.
  intros Hmu. rewrite (Cache_Flush_run s Hmu).
  set (s' := set_items ∅ s).
  assert (Hself : self s' = NewCache (defaultExpiration (self s))
                                     (gcInterval (self s))).
  { subst s'. unfold NewCache. simpl. rewrite Hmu. reflexivity. }
  assert (Hw' : writer (mu (self s')) = false) by (rewrite Hself; reflexivity).
  exists s'. split; [reflexivity|]. split; [exact Hself|]. split.
  - rewrite (Cache_Count_run s' Hw'), Hself. reflexivity.
  - intros k. rewrite (Cache_Get_run k s' Hw'), Hself. reflexivity.
Qed.

(** ** Set, read back *)

Lemma wrap64_is_int64 z : is_int64 (wrap64 z).
Proof.
  unfold is_int64, min_int64, max_int64, wrap64.
  pose proof (Z.mod_pos_bound (z + 2 ^ 63) (2 ^ 64) ltac:(lia)). lia.
Qed.

Lemma Get_after_Set k v d s s2 :
  mu (self s) = unlocked ->
  self s2 = self (set_items
                    (<[k := mkItem v (Set_expiration (self s) d (now s))]>
                       (items (self s)))
                    (after_Set_clock d s)) ->
  ∃ s3, Cache_Get k s2 =
        Ret (lookup_result (now s2)
               (Some (mkItem v (Set_expiration (self s) d (now s))))) s3.
Proof.
  intros Hmu Hself.
  assert (Hw : writer (mu (self s2)) = false).
  { rewrite Hself. simpl. rewrite self_after_Set_clock, Hmu. reflexivity. }
  rewrite (Cache_Get_run k s2 Hw), Hself. simpl.
  rewrite lookup_insert_eq. eexists. reflexivity.
Qed.

(** X3. After [Set(k, v, d)] on a free mutex, a [Get(k)] made while the
    store is as [Set] left it returns [v] whatever the clock reads when
    [d] is the "no expiration" sentinel. For a positive [d] with the sum
    of the clock reading of [Set] and [d] in the [int64] range, it
    returns [v] while the clock reads at most that sum and reports
    not-found once the clock reads more; except that a sum of exactly 0
    is the "never expires" value, and [v] is then returned for ever. *)
Theorem Set_then_Get k v d s :
  mu (self s) = unlocked ->
  ∃ s1, Cache_Set k v d s = Ret tt s1 ∧
    ∀ s2, self s2 = self s1 ->
      ∃ r s3, Cache_Get k s2 = Ret r s3 ∧
        (d = NoExpiration -> r = (v, true)) ∧
        (d > 0 -> is_int64 (now s + d) ->
           (now s2 <= now s + d -> r = (v, true)) ∧
           (now s + d < now s2 -> now s + d ≠ 0 -> r = (None, false)) ∧
           (now s + d = 0 -> r = (v, true))).
Proof.
  intros Hmu. rewrite (Cache_Set_run k v d s Hmu).
  eexists. split; [reflexivity|]. intros s2 Hself.
  destruct (Get_after_Set k v d s s2 Hmu Hself) as (s3 & HG).
  eexists _, s3. split; [exact HG|]. split.
  - intros ->. reflexivity.
  - intros Hd Hr.
    assert (He : Set_expiration (self s) d (now s) = now s + d).
    { unfold Set_expiration, Set_duration, DefaultExpiration.
      destruct (d =? 0) eqn:H0; [apply Z.eqb_eq in H0; lia|].
      destruct (d >? 0) eqn:Hgt; [apply wrap64_id, Hr|].
      rewrite Z.gtb_ltb in Hgt. apply Z.ltb_ge in Hgt. lia. }
    rewrite He. unfold lookup_result. cbn [Object].
    split; [|split]; intros; [| |];
      destruct (expired_at (now s2) (mkItem v (now s + d))) eqn:Hexp;
      try reflexivity.
    + apply expired_at_true in Hexp. simpl in Hexp. lia.
    + apply expired_at_false in Hexp. simpl in Hexp. lia.
    + apply expired_at_true in Hexp. simpl in Hexp. lia.
Qed.

(** X4. The expiration [Set] stores is always an [int64]. It is 0
    (never expires) for every negative duration, and for the "default"
    duration 0 when the store's default is not positive; for the
    "default" duration with a positive default it is the clock reading
    plus the default, wrapped to 64 bits. *)
Theorem Set_effective_duration k v d s :
  mu (self s) = unlocked ->
  ∃ e s', Cache_Set k v d s = Ret tt s' ∧
    items (self s') !! k = Some (mkItem v e) ∧
    is_int64 e ∧
    (d < 0 -> e = 0) ∧
    (d = DefaultExpiration -> defaultExpiration (self s) <= 0 -> e = 0) ∧
    (d = DefaultExpiration -> defaultExpiration (self s) > 0 ->
       e = wrap64 (now s + defaultExpiration (self s))).
Proof.
  intros Hmu. rewrite (Cache_Set_run k v d s Hmu).
  exists (Set_expiration (self s) d (now s)). eexists.
  split; [reflexivity|]. split; [apply lookup_insert_eq|].
  unfold Set_expiration, Set_duration, DefaultExpiration.
  split; [|split; [|split]].
  - destruct (_ >? 0); [apply wrap64_is_int64|].
    unfold is_int64, min_int64, max_int64. lia.
  - intros Hd. destruct (d =? 0) eqn:H0; [apply Z.eqb_eq in H0; lia|].
    destruct (d >? 0) eqn:Hgt; [apply Z.gtb_gt in Hgt; lia|reflexivity].
  - intros -> Hde. simpl.
    destruct (defaultExpiration (self s) >? 0) eqn:Hgt;
      [apply Z.gtb_gt in Hgt; lia|reflexivity].
  - intros -> Hde. simpl.
    destruct (defaultExpiration (self s) >? 0) eqn:Hgt; [reflexivity|].
    rewrite Z.gtb_ltb in Hgt. apply Z.ltb_ge in Hgt. lia.
Qed.

(** X5. [Set] on a key that has no entry makes [Count] one more; on a
    key that has one, expired or not, it leaves [Count] as it was. *)
Theorem Set_Count k v d s :
  mu (self s) = unlocked ->
  ∃ s', Cache_Set k v d s = Ret tt s' ∧
    (items (self s) !! k = None ->
       Cache_Count s' = Ret (Z.of_nat (size (items (self s))) + 1) s') ∧
    (is_Some (items (self s) !! k) ->
       Cache_Count s' = Ret (Z.of_nat (size (items (self s)))) s').
Proof.
  intros Hmu. rewrite (Cache_Set_run k v d s Hmu).
  eexists. split; [reflexivity|].
  rewrite Cache_Count_run
    by (simpl; rewrite self_after_Set_clock, Hmu; reflexivity).
  simpl. split.
  - intros Hk. rewrite map_size_insert_None by exact Hk.
    do 2 f_equal. lia.
  - intros Hk. rewrite map_size_insert_Some by exact Hk. reflexivity.
Qed.

(** X6. [Set] of a key that has no entry, followed by [Delete] of that
    key, leaves the receiver as it was before the two calls. *)
Theorem Set_then_Delete k v d s :
  mu (self s) = unlocked ->
  items (self s) !! k = None ->
  ∃ s1 s2, Cache_Set k v d s = Ret tt s1 ∧
    Cache_Delete k s1 = Ret tt s2 ∧ self s2 = self s.
Proof.
  intros Hmu Hk. rewrite (Cache_Set_run k v d s Hmu).
  eexists _, _. split; [reflexivity|].
  rewrite Cache_Delete_run
    by (simpl; rewrite self_after_Set_clock, Hmu; reflexivity).
  split; [reflexivity|]. simpl.
  rewrite delete_insert_eq, delete_id by exact Hk.
  rewrite self_after_Set_clock. world s. reflexivity.
Qed.

(** ** The sweep, seen from Get and repeated *)

Lemma swept_false t item :
  swept t item = false <-> ¬ (0 < Expiration item ∧ Expiration item < t).
Proof.
  rewrite <- swept_true. destruct (swept t item); split; congruence.
Qed.

Lemma swept_expired t t' item :
  swept t item = true -> t <= t' -> expired_at t' item = true.
Proof.
  rewrite swept_true, expired_at_true. lia.
Qed.

(** X7. A pass of [DeleteExpired] cannot be told from [Get]: for every
    key, a [Get] when the clock reads no less than it read for the pass
    returns the same on the store the pass left as on the store before
    the pass. *)
Theorem DeleteExpired_invisible_to_Get k s :
  mu (self s) = unlocked ->
  ∃ s1, Cache_DeleteExpired range_order s = Ret tt s1 ∧
    ∀ sa sb, self sa = self s -> self sb = self s1 ->
      now sa = now sb -> now s <= now sa ->
      ∃ r sa' sb', Cache_Get k sa = Ret r sa' ∧ Cache_Get k sb = Ret r sb'.
Proof.
  intros Hmu. rewrite (Cache_DeleteExpired_run s Hmu).
  eexists. split; [reflexivity|]. intros sa sb Ha Hb Hnow Hle.
  assert (Hwa : writer (mu (self sa)) = false)
    by (rewrite Ha, Hmu; reflexivity).
  assert (Hwb : writer (mu (self sb)) = false)
    by (rewrite Hb; simpl; rewrite Hmu; reflexivity).
  rewrite (Cache_Get_run k sa Hwa), (Cache_Get_run k sb Hwb), Ha, Hb.
  cbn [self items set_items set_self set_ticks].
  eexists _, _, _. split; [reflexivity|]. f_equal. rewrite <- Hnow.
  destruct (items (self s) !! k) as [item|] eqn:Hk.
  - destruct (swept (now s) item) eqn:Hsw.
    + replace (filter _ (items (self s)) !! k) with (@None (Item V)).
      * unfold lookup_result.
        rewrite (swept_expired _ _ _ Hsw Hle). reflexivity.
      * symmetry. apply map_lookup_filter_None. right.
        intros item' Hk' Hn. simpl in Hn. apply Hn, swept_true. congruence.
    + replace (filter _ (items (self s)) !! k) with (Some item);
        [reflexivity|].
      symmetry. apply map_lookup_filter_Some. split; [exact Hk|].
      simpl. apply swept_false, Hsw.
  - replace (filter _ (items (self s)) !! k) with (@None (Item V));
      [reflexivity|].
    symmetry. apply map_lookup_filter_None. left. exact Hk.
Qed.

(** X8. Two passes of [DeleteExpired], one after the other, leave what
    one pass leaves that reads the later of their two clock readings; a
    second pass that reads no later time than the first removes
    nothing. *)
Theorem DeleteExpired_twice s :
  mu (self s) = unlocked ->
  ∃ s1 s2, Cache_DeleteExpired range_order s = Ret tt s1 ∧
    Cache_DeleteExpired range_order s1 = Ret tt s2 ∧
    items (self s2) =
      filter (λ kv, ¬ (0 < Expiration kv.2 ∧
                       Expiration kv.2 < Z.max (now s) (now s1)))
             (items (self s)) ∧
    (now s1 <= now s -> self s2 = self s1).
Proof.
  intros Hmu. rewrite (Cache_DeleteExpired_run s Hmu).
  eexists _, _. split; [reflexivity|].
  rewrite Cache_DeleteExpired_run by exact Hmu.
  split; [reflexivity|].
  set (s1 := set_items _ (set_ticks (S (ticks s)) s)).
  change (items (self s1))
    with (filter (λ kv : string * Item V,
                    ¬ (0 < Expiration kv.2 ∧ Expiration kv.2 < now s))
                 (items (self s))).
  assert (Heq : ∀ t,
    filter (λ kv : string * Item V,
              ¬ (0 < Expiration kv.2 ∧ Expiration kv.2 < t))
      (filter (λ kv : string * Item V,
                 ¬ (0 < Expiration kv.2 ∧ Expiration kv.2 < now s))
         (items (self s))) =
    filter (λ kv : string * Item V,
              ¬ (0 < Expiration kv.2 ∧ Expiration kv.2 < Z.max (now s) t))
      (items (self s))).
  { intros t. apply map_eq. intros i. apply option_eq. intros x.
    rewrite !map_lookup_filter_Some. simpl. split.
    - intros [[Hi H1] H2]. split; [exact Hi|]. lia.
    - intros [Hi H]. split; [split; [exact Hi|]|]; lia. }
  split.
  - simpl. apply Heq.
  - intros Hle.
    change (self (set_items
                    (filter (λ kv : string * Item V,
                               ¬ (0 < Expiration kv.2 ∧
                                  Expiration kv.2 < now s1))
                            (items (self s1)))
                    (set_ticks (S (ticks s1)) s1)))
      with (mkCache (defaultExpiration (self s))
              (filter (λ kv : string * Item V,
                         ¬ (0 < Expiration kv.2 ∧ Expiration kv.2 < now s1))
                 (filter (λ kv : string * Item V,
                            ¬ (0 < Expiration kv.2 ∧
                               Expiration kv.2 < now s))
                    (items (self s))))
              (mu (self s)) (gcInterval (self s))).
    rewrite Heq. replace (Z.max (now s) (now s1)) with (now s) by lia.
    reflexivity.
Qed.

(** ** The sweeper *)

Lemma swept_by_S clk t n item :
  swept_by clk t (S n) item = swept (clk t) item || swept_by clk (S t) n item.
Proof. reflexivity. Qed.

Lemma swept_by_false clk t n item :
  swept_by clk t n item = false <->
  ∀ i, (t <= i < t + n)%nat ->
       ¬ (0 < Expiration item ∧ Expiration item < clk i).
Proof.
  revert t. induction n as [|n IH]; intros t.
  - split; [intros _ i Hi; lia|reflexivity].
  - rewrite swept_by_S, orb_false_iff, swept_false, IH. split.
    + intros [H0 Hn] i Hi. destruct (decide (i = t)) as [->|Hne];
        [exact H0|apply Hn; lia].
    + intros H. split; [apply H; lia|intros i Hi; apply H; lia].
Qed.

Lemma filter_swept_by_S clk t n m :
  filter (λ kv : string * Item V, swept_by clk (S t) n kv.2 = false)
    (filter (λ kv : string * Item V,
               ¬ (0 < Expiration kv.2 ∧ Expiration kv.2 < clk t)) m) =
  filter (λ kv : string * Item V, swept_by clk t (S n) kv.2 = false) m.
Proof.
  apply map_eq. intros i. apply option_eq. intros x.
  rewrite !map_lookup_filter_Some. cbn [snd].
  rewrite swept_by_S, orb_false_iff, swept_false.
  split; [intros [[Hi H0] Hn]|intros [Hi [H0 Hn]]]; repeat split; assumption.
Qed.

Lemma sweeper_passes_run n s :
  mu (self s) = unlocked ->
  sweeper_passes range_order n s =
  Ret tt (set_items
            (filter (λ kv, swept_by (clock s) (ticks s) n kv.2 = false)
                    (items (self s)))
            (set_ticks (ticks s + n) s)).
Proof.
  revert s. induction n as [|n IH]; intros s Hmu.
  - cbn [sweeper_passes]. unfold ret. f_equal.
    rewrite map_filter_id by reflexivity.
    rewrite Nat.add_0_r. world s. reflexivity.
  - cbn [sweeper_passes]. unfold bind.
    rewrite (Cache_DeleteExpired_run s Hmu), IH by exact Hmu.
    cbn [self items clock ticks set_items set_self set_ticks].
    unfold now. rewrite filter_swept_by_S.
    replace (S (ticks s) + n)%nat with (ticks s + S n)%nat by lia.
    reflexivity.
Qed.

Lemma gcLoop_select_ticks n (events : list Event) s :
  gcLoop_select range_order (replicate n Tick ++ events) s =
  (run sweeper_passes range_order n; gcLoop_select range_order events) s.
Proof.
  revert s. induction n as [|n IH]; intros s; [reflexivity|].
  cbn [replicate app gcLoop_select sweeper_passes]. unfold bind.
  destruct (Cache_DeleteExpired range_order s) as [[] s1|s1|s1|s1];
    try reflexivity.
  rewrite IH. reflexivity.
Qed.

(** X9. [gcLoop] panics before any pass when the sweep interval is not
    positive. With a positive interval and the mutex free at each tick,
    [n] ticks followed by the stop value make it return after exactly [n]
    passes, each with its own clock reading, whatever would arrive after
    the stop value: the entries left are those no pass found with a
    positive expiration less than its reading. Without the stop value it
    makes the same passes and stays parked in its [select]. *)
Theorem gcLoop_sweeps_until_stop n (rest : list Event) s :
  (gcInterval (self s) <= 0 ->
     ∀ events, Cache_gcLoop range_order events s = Panic s) ∧
  (gcInterval (self s) > 0 -> mu (self s) = unlocked ->
     ∃ s', Cache_gcLoop range_order (replicate n Tick ++ Stop :: rest) s
           = Ret tt s' ∧
       Cache_gcLoop range_order (replicate n Tick) s = Block s' ∧
       mu (self s') = unlocked ∧
       ticks s' = (ticks s + n)%nat ∧
       ∀ k item, items (self s') !! k = Some item <->
         items (self s) !! k = Some item ∧
         ∀ i, (ticks s <= i < ticks s + n)%nat ->
              ¬ (0 < Expiration item ∧ Expiration item < clock s i)).
Proof.
  split.
  - intros Hgi events. unfold Cache_gcLoop, bind, time_NewTicker.
    destruct (gcInterval (self s) <=? 0) eqn:Hle; [reflexivity|].
    apply Z.leb_gt in Hle. lia.
  - intros Hgi Hmu.
    assert (Hstart : ∀ events, Cache_gcLoop range_order events s =
                               gcLoop_select range_order events s).
    { intros events. unfold Cache_gcLoop, bind, time_NewTicker.
      destruct (gcInterval (self s) <=? 0) eqn:Hle; [|reflexivity].
      apply Z.leb_le in Hle. lia. }
    eexists. split; [|split].
    + rewrite Hstart, gcLoop_select_ticks. unfold bind.
      rewrite (sweeper_passes_run n s Hmu). reflexivity.
    + rewrite Hstart, <- (app_nil_r (replicate n Tick)), gcLoop_select_ticks.
      unfold bind. rewrite (sweeper_passes_run n s Hmu). reflexivity.
    + cbn [self items mu ticks set_items set_self set_ticks].
      split; [exact Hmu|]. split; [reflexivity|].
      intros k item. rewrite map_lookup_filter_Some. cbn [snd].
      rewrite swept_by_false. reflexivity.
Qed.

(** X10. Once [Add] has parked on its own lock (a key with no live
    entry, see C2), the sweeper parks at its next tick and leaves the
    receiver as it is: no entry is evicted any more. *)
Theorem sweeper_parks_after_Add k v d (events : list Event) s :
  mu (self s) = unlocked ->
  (∀ item, items (self s) !! k = Some item ->
     expired_at (now s) item = true) ->
  ∃ s1 s2, Cache_Add k v d s = Block s1 ∧
    gcLoop_select range_order (Tick :: events) s1 = Block s2 ∧
    self s2 = self s1 ∧ items (self s2) = items (self s).
Proof.
  intros Hmu Hk. pose proof (Cache_Add_run k v d s Hmu) as HA.
  cbv zeta in HA. unfold lookup_result in HA.
  set (o := items (self s) !! k) in *.
  assert (Hpark : Cache_Add k v d s =
                  Block (after_Set_clock d
                           match o with
                           | None => set_mu locked s
                           | Some item => after_Expired item (set_mu locked s)
                           end)).
  { rewrite HA. destruct o as [item|]; [|reflexivity].
    rewrite (Hk item eq_refl). reflexivity. }
  pose proof (self_parked_after_check o d s) as Hself.
  set (s1 := after_Set_clock d _) in *. clearbody s1.
  exists s1, (set_ticks (S (ticks s1)) s1).
  split; [exact Hpark|]. split.
  - cbn [gcLoop_select]. unfold bind, Cache_DeleteExpired, bind.
    unfold time_Now_UnixNano, mu_Lock.
    cbn [self set_ticks]. rewrite Hself. reflexivity.
  - split; [reflexivity|]. cbn [self set_ticks]. rewrite Hself. reflexivity.
Qed.

(** ** Save and Load *)

(** X11. While no writer holds the mutex, [Save] returns and leaves the
    world, the store and its mutex included, exactly as it was. If
    [gob.Register] panics on the value of some entry, [Save] recovers:
    it has written nothing and returns its own error; if it accepts the
    value of every entry, [Save] has written and returns what the encoder
    wrote and returned for the entry map. *)
Theorem Save_recovers_and_frames s :
  writer (mu (self s)) = false ->
  ∃ r, Cache_Save gob_registrable gob_Encode range_order s = Ret r s ∧
    ((∃ k item, items (self s) !! k = Some item ∧
                gob_registrable (Object item) = false) ->
       r = ([], Some ErrGobRegister)) ∧
    ((∀ k item, items (self s) !! k = Some item ->
                gob_registrable (Object item) = true) ->
       r = gob_Encode (items (self s))).
Proof.
  intros Hw. rewrite (Cache_Save_run s Hw). eexists. split; [reflexivity|].
  split.
  - intros (k & item & Hk & Hreg).
    destruct (forallb _ _) eqn:Hall; [|reflexivity].
    rewrite forallb_forall in Hall.
    specialize (Hall (k, item)). cbn [snd] in Hall.
    rewrite Hall in Hreg; [discriminate|].
    apply list_elem_of_In, elem_of_range_order, Hk.
  - intros Hreg.
    replace (forallb _ _) with true; [reflexivity|].
    symmetry. apply forallb_forall. intros [k x] Hin.
    apply list_elem_of_In, elem_of_range_order in Hin. apply (Hreg k x Hin).
Qed.

(** X12. [Load] of a stream that decodes, on a free mutex, never removes
    a key: the keys afterwards are the keys before together with the
    decoded keys, so [Count] does not go down; the two durations of the
    store are as before. *)
Theorem Load_keeps_every_key r decoded s :
  gob_Decode r = inl decoded ->
  mu (self s) = unlocked ->
  ∃ s', Cache_Load gob_Decode range_order r s = Ret None s' ∧
    dom (items (self s')) = dom (items (self s)) ∪ dom decoded ∧
    (size (items (self s)) <= size (items (self s')))%nat ∧
    defaultExpiration (self s') = defaultExpiration (self s) ∧
    gcInterval (self s') = gcInterval (self s).
Proof.
  intros Hdec Hmu.
  destruct (Cache_Load_run r decoded s Hdec Hmu) as (m' & n & Hrun & _ & Hm').
  eexists. split; [exact Hrun|]. cbn [self items set_items set_self set_ticks
                                        defaultExpiration gcInterval].
  assert (Hdom : dom m' = dom (items (self s)) ∪ dom decoded).
  { apply set_eq. intros k. rewrite elem_of_union, !elem_of_dom.
    specialize (Hm' k).
    destruct (decoded !! k) as [x|], (items (self s) !! k) as [ov|].
    - destruct Hm' as (i & _ & ->). split; [intros _; left|]; eauto.
    - rewrite Hm'. split; [intros _; right|]; eauto.
    - rewrite Hm'. split; [intros _; left|]; eauto.
    - rewrite Hm'. split; [intros []; discriminate|].
      intros [[]|[]]; discriminate. }
  split; [exact Hdom|]. split; [|split; reflexivity].
  rewrite <- !size_dom. rewrite Hdom. apply subseteq_size.
  apply union_subseteq_l.
Qed.

(** ** LoadFile *)

Lemma merge_loop_set_fs (l : list (string * Item V)) fs op s s' :
  for_range l merge_entry s = Ret tt s' ->
  for_range l merge_entry (set_fs fs op s) = Ret tt (set_fs fs op s').
Proof.
  revert s. induction l as [|[k x] l IH]; intros s.
  - cbn [for_range]. unfold ret. intros [= <-]. reflexivity.
  - cbn [for_range]. unfold bind. rewrite !merge_entry_run.
    cbn [self set_fs items]. change (now (set_fs fs op s)) with (now s).
    destruct (items (self s) !! k) as [ov|].
    + intros H. apply IH in H. rewrite <- H. f_equal.
      unfold after_Expired. destruct (Expiration ov =? 0); reflexivity.
    + intros H. apply IH in H. rewrite <- H. reflexivity.
Qed.

Lemma Cache_Load_unlocked r decoded s :
  gob_Decode r = inl decoded ->
  mu (self s) = unlocked ->
  Cache_Load gob_Decode range_order r s =
  defer mu_Unlock
    (run for_range (range_order decoded) merge_entry; ret None)
    (set_mu locked s).
Proof.
  intros Hdec Hmu. unfold Cache_Load. rewrite Hdec.
  unfold bind at 1, mu_Lock. rewrite Hmu. reflexivity.
Qed.

Lemma Cache_Load_set_fs r decoded fs op s :
  gob_Decode r = inl decoded ->
  mu (self s) = unlocked ->
  ∃ s1, Cache_Load gob_Decode range_order r s = Ret None s1 ∧
    Cache_Load gob_Decode range_order r (set_fs fs op s)
    = Ret None (set_fs fs op s1).
Proof.
  intros Hdec Hmu.
  rewrite !(Cache_Load_unlocked r decoded) by assumption.
  change (set_mu locked (set_fs fs op s))
    with (set_fs fs op (set_mu locked s)).
  destruct (merge_loop_run (range_order decoded) (set_mu locked s)
              (range_order_NoDup decoded)) as (m' & n & Hrun & _).
  unfold defer, bind.
  rewrite (merge_loop_set_fs _ fs op _ _ Hrun), Hrun.
  eexists. split; reflexivity.
Qed.

Lemma Cache_LoadFile_opened file content s :
  os_err s (OsOpen file) = None ->
  files s !! file = Some content ->
  Cache_LoadFile gob_Decode range_order file s =
  match Cache_Load gob_Decode range_order content
          (set_fs (files s) (file :: opened s) s) with
  | Ret (Some e) s' =>
      Ret (Some e) (set_fs (files s') (remove_first file (opened s')) s')
  | Ret None s' =>
      Ret (os_err s' (OsClose file))
          (set_fs (files s') (remove_first file (opened s')) s')
  | Block s' => Block s'
  | Panic s' => Panic s'
  | Fatal s' => Fatal s'
  end.
Proof.
  intros Ho Hf. unfold Cache_LoadFile, bind at 1, os_Open. rewrite Ho, Hf.
  unfold bind at 1, File_contents.
  change (files (set_fs (files s) (file :: opened s) s)) with (files s).
  unfold bytes in *. rewrite Hf. cbn [default from_option].
  unfold bind at 1.
  destruct (Cache_Load _ _ _ _) as [[e|] s'|s'|s'|s']; reflexivity.
Qed.

(** X13. The error paths of [LoadFile] leave the world as it was, the
    store and the open handles included. It returns the error of
    [os.Open] when the file cannot be opened (some error when no such
    file exists); and when the stream does not decode it closes the file
    and returns the decoder's error, whatever [Close] returns. *)
Theorem LoadFile_errors file s :
  (∀ e, os_err s (OsOpen file) = Some e ->
     Cache_LoadFile gob_Decode range_order file s = Ret (Some e) s) ∧
  (os_err s (OsOpen file) = None -> files s !! file = None ->
     ∃ e, Cache_LoadFile gob_Decode range_order file s = Ret (Some e) s) ∧
  (∀ content err, os_err s (OsOpen file) = None ->
     files s !! file = Some content -> gob_Decode content = inr err ->
     Cache_LoadFile gob_Decode range_order file s = Ret (Some err) s).
Proof.
  split; [|split].
  - intros e He. unfold Cache_LoadFile, bind, os_Open. rewrite He.
    reflexivity.
  - intros Ho Hf. unfold Cache_LoadFile, bind, os_Open. rewrite Ho, Hf.
    eexists. reflexivity.
  - intros content err Ho Hf Hdec.
    rewrite (Cache_LoadFile_opened file content s Ho Hf).
    unfold Cache_Load. rewrite Hdec. unfold ret.
    cbn [files set_fs opened]. rewrite remove_first_head.
    f_equal. world s. reflexivity.
Qed.

(** X14. When the file opens, its contents decode and the mutex is
    free, [LoadFile] does to the world what [Load] of the contents does,
    closes the file, and returns what [Close] returns. *)
Theorem LoadFile_is_Load_of_contents file content decoded s :
  os_err s (OsOpen file) = None ->
  files s !! file = Some content ->
  gob_Decode content = inl decoded ->
  mu (self s) = unlocked ->
  ∃ s1, Cache_Load gob_Decode range_order content s = Ret None s1 ∧
    Cache_LoadFile gob_Decode range_order file s
    = Ret (os_err s (OsClose file)) s1.
Proof.
  intros Ho Hf Hdec Hmu.
  destruct (Cache_Load_set_fs content decoded (files s) (file :: opened s) s
              Hdec Hmu) as (s1 & Hload & Hload').
  exists s1. split; [exact Hload|].
  rewrite (Cache_LoadFile_opened file content s Ho Hf), Hload'.
  cbn [files set_fs opened os_err]. rewrite remove_first_head.
  assert (Hfs : files s1 = files s ∧ opened s1 = opened s ∧
                os_err s1 = os_err s).
  { destruct (Cache_Load_run content decoded s Hdec Hmu)
      as (m' & n & Hrun & _).
    rewrite Hrun in Hload. injection Hload as <-. auto. }
  destruct Hfs as (Hfiles & Hop & Herr). rewrite Herr. f_equal.
  rewrite <- Hfiles, <- Hop.
  destruct s1 as [? ? ? ? ? ?]. reflexivity.
Qed.

(** X15. A file written by [SaveToFile] restores nothing: when the
    decoder rejects the empty stream, [LoadFile] of that file returns the
    decoder's error, and the store is as it was before the two calls. *)
Theorem SaveToFile_then_LoadFile file err s :
  os_err s (OsCreate file) = None ->
  os_err s (OsOpen file) = None ->
  gob_Decode [] = inr err ->
  ∃ s1 s2, Cache_SaveToFile file s = Ret (os_err s (OsClose file)) s1 ∧
    Cache_LoadFile gob_Decode range_order file s1 = Ret (Some err) s2 ∧
    self s2 = self s ∧ files s2 !! file = Some [] ∧ opened s2 = opened s.
Proof.
  intros Hc Ho Hdec.
  set (s1 := set_fs (<[file := []]> (files s)) (opened s) s).
  assert (Hsave : Cache_SaveToFile file s = Ret (os_err s (OsClose file)) s1).
  { unfold Cache_SaveToFile, bind, os_Create. rewrite Hc.
    unfold File_Close. cbn [files set_fs opened os_err].
    rewrite remove_first_head. reflexivity. }
  assert (Hf1 : files s1 !! file = Some []) by apply lookup_insert_eq.
  exists s1, s1. split; [exact Hsave|]. split.
  - rewrite (Cache_LoadFile_opened file [] s1 Ho Hf1).
    unfold Cache_Load. rewrite Hdec. unfold ret.
    cbn [files set_fs opened]. rewrite remove_first_head. reflexivity.
  - split; [reflexivity|]. split; [exact Hf1|reflexivity].
Qed.

(** ** What no call changes *)

Lemma ignore_Ret {A} (m : M A) s s' :
  ignore m s = Ret tt s' -> ∃ a, m s = Ret a s'.
Proof.
  unfold ignore, bind, ret. destruct (m s) as [a s1|s1|s1|s1];
    intros H; try discriminate H.
  injection H as <-. eauto.
Qed.

Lemma mu_Lock_cases s :
  mu (self s) = unlocked ∨ ∀ s0, self s0 = self s -> mu_Lock s0 = Block s0.
Proof.
  destruct (mu (self s)) as [[] [|r]] eqn:Hmu; [right|right|left|right];
    try reflexivity;
    intros s0 Hs0; unfold mu_Lock; rewrite Hs0, Hmu; reflexivity.
Qed.

Lemma mu_RLock_cases s :
  writer (mu (self s)) = false ∨ mu_RLock s = Block s.
Proof.
  unfold mu_RLock. destruct (writer (mu (self s))); auto.
Qed.

Lemma same_but_items_refl (c : Cache V) : same_but_items c c.
Proof. repeat split. Qed.

Lemma same_but_items_eq (c c' : Cache V) : c' = c -> same_but_items c c'.
Proof. intros ->. apply same_but_items_refl. Qed.

(** X16. A call of any method that returns leaves the mutex in the
    state it found it in, whatever that state was, and never changes the
    default expiration or the sweep interval of the store. *)
Theorem calls_leave_mutex_and_durations (c : Call V) s s' :
  call' c s = Ret tt s' ->
  mu (self s') = mu (self s) ∧
  defaultExpiration (self s') = defaultExpiration (self s) ∧
  gcInterval (self s') = gcInterval (self s).
Proof.
  change (call' c s = Ret tt s' -> same_but_items (self s) (self s')).
  destruct c as [|k v d|k v d|k|k v d|k| |file|r|file| |]; unfold call.
  - destruct (mu_Lock_cases s) as [Hmu|Hbusy].
    + rewrite (Cache_DeleteExpired_run s Hmu). intros [= <-].
      repeat split.
    + unfold Cache_DeleteExpired, bind, time_Now_UnixNano.
      rewrite Hbusy by reflexivity. discriminate.
  - destruct (mu_Lock_cases s) as [Hmu|Hbusy].
    + rewrite (Cache_Set_run k v d s Hmu). intros [= <-].
      unfold same_but_items. cbn [self set_items set_self mu
                                   defaultExpiration gcInterval].
      rewrite self_after_Set_clock. repeat split.
    + unfold Cache_Set, bind.
      destruct (_ >? 0); unfold bind, time_Now_UnixNano, ret;
        rewrite Hbusy by reflexivity; discriminate.
  - intros H. apply ignore_Ret in H as [a H].
    destruct (mu_Lock_cases s) as [Hmu|Hbusy].
    + rewrite (Cache_Add_run k v d s Hmu) in H.
      destruct (lookup_result _ _).2; [|discriminate H].
      injection H as _ <-. apply same_but_items_eq.
      apply (self_unlock_after_check _ s Hmu).
    + unfold Cache_Add, bind in H. rewrite Hbusy in H by reflexivity.
      discriminate H.
  - intros H. apply ignore_Ret in H as [a H].
    destruct (mu_RLock_cases s) as [Hw|Hbusy].
    + rewrite (Cache_Get_run k s Hw) in H. injection H as _ <-.
      apply same_but_items_eq.
      destruct (_ !! k); [apply self_after_Expired|reflexivity].
    + unfold Cache_Get, bind in H. rewrite Hbusy in H. discriminate H.
  - intros H. apply ignore_Ret in H as [a H].
    destruct (mu_Lock_cases s) as [Hmu|Hbusy].
    + rewrite (Cache_Replace_run k v d s Hmu) in H.
      destruct (lookup_result _ _).2; [discriminate H|].
      injection H as _ <-. apply same_but_items_eq.
      apply (self_unlock_after_check _ s Hmu).
    + unfold Cache_Replace, bind in H. rewrite Hbusy in H by reflexivity.
      discriminate H.
  - destruct (mu_Lock_cases s) as [Hmu|Hbusy].
    + rewrite (Cache_Delete_run k s Hmu). intros [= <-]. repeat split.
    + unfold Cache_Delete, bind. rewrite Hbusy by reflexivity. discriminate.
  - intros H. apply ignore_Ret in H as [a H].
    destruct (mu_RLock_cases s) as [Hw|Hbusy].
    + rewrite (Cache_Save_run s Hw) in H. injection H as _ <-.
      apply same_but_items_refl.
    + unfold Cache_Save, recover_with, bind in H. rewrite Hbusy in H.
      discriminate H.
  - intros H. apply ignore_Ret in H as [a H].
    unfold Cache_SaveToFile, bind, os_Create, File_Close, ret in H.
    destruct (os_err s (OsCreate file)); injection H as _ <-;
      apply same_but_items_refl.
  - intros H. apply ignore_Ret in H as [a H].
    destruct (gob_Decode r) as [decoded|err] eqn:Hdec.
    + destruct (mu_Lock_cases s) as [Hmu|Hbusy].
      * destruct (Cache_Load_run r decoded s Hdec Hmu)
          as (m' & n & Hrun & _).
        rewrite Hrun in H. injection H as _ <-. repeat split.
      * unfold Cache_Load in H. rewrite Hdec in H. unfold bind in H.
        rewrite Hbusy in H by reflexivity. discriminate H.
    + unfold Cache_Load in H. rewrite Hdec in H. injection H as _ <-.
      apply same_but_items_refl.
  - intros H. apply ignore_Ret in H as [a H].
    destruct (os_err s (OsOpen file)) as [e|] eqn:Ho.
    { unfold Cache_LoadFile, bind, os_Open in H. rewrite Ho in H.
      injection H as _ <-. apply same_but_items_refl. }
    destruct (files s !! file) as [content|] eqn:Hf.
    2:{ unfold Cache_LoadFile, bind, os_Open in H. rewrite Ho, Hf in H.
        injection H as _ <-. apply same_but_items_refl. }
    rewrite (Cache_LoadFile_opened file content s Ho Hf) in H.
    set (s0 := set_fs (files s) (file :: opened s) s) in H.
    destruct (gob_Decode content) as [decoded|err] eqn:Hdec.
    + destruct (mu_Lock_cases s0) as [Hmu|Hbusy].
      * destruct (Cache_Load_run content decoded s0 Hdec Hmu)
          as (m' & n & Hrun & _).
        rewrite Hrun in H. injection H as _ <-. repeat split.
      * unfold Cache_Load in H. rewrite Hdec in H. unfold bind in H.
        rewrite Hbusy in H by reflexivity. discriminate H.
    + unfold Cache_Load in H. rewrite Hdec in H. unfold ret in H.
      injection H as _ <-. apply same_but_items_refl.
  - intros H. apply ignore_Ret in H as [a H].
    destruct (mu_RLock_cases s) as [Hw|Hbusy].
    + rewrite (Cache_Count_run s Hw) in H. injection H as _ <-.
      apply same_but_items_refl.
    + unfold Cache_Count, bind in H. rewrite Hbusy in H. discriminate H.
  - destruct (mu_Lock_cases s) as [Hmu|Hbusy].
    + rewrite (Cache_Flush_run s Hmu). intros [= <-]. repeat split.
    + unfold Cache_Flush, bind. rewrite Hbusy by reflexivity. discriminate.
Qed.

(** ** An entry and the sweeper *)

Lemma Get_not_found_if_expired t (o : option (Item V)) :
  (∀ item, o = Some item -> expired_at t item = true) ->
  lookup_result t o = (None, false).
Proof.
  intros H. destruct o as [item|]; [|reflexivity].
  unfold lookup_result. rewrite (H item eq_refl). reflexivity.
Qed.

(** X17. Lazy expiration does not depend on the sweeper. After
    [Set(k, v, d)] with a positive [d] (the clock reading [t] of [Set]
    plus [d] an [int64] other than 0) and any number of sweeper passes,
    on a clock that does not go backwards, [Get(k)] returns [v] if the
    clock then reads at most [t + d], and reports not-found if it reads
    more. *)
Theorem Set_sweeps_Get k v d n s :
  mu (self s) = unlocked ->
  d > 0 -> is_int64 (now s + d) -> now s + d ≠ 0 ->
  (∀ i j, (i <= j)%nat -> clock s i <= clock s j) ->
  ∃ s1 s2 r s3,
    Cache_Set k v d s = Ret tt s1 ∧
    sweeper_passes range_order n s1 = Ret tt s2 ∧
    Cache_Get k s2 = Ret r s3 ∧
    (now s2 <= now s + d -> r = (v, true)) ∧
    (now s + d < now s2 -> r = (None, false)).
Proof.
  intros Hmu Hd Hr Hnz Hmono.
  assert (He : Set_expiration (self s) d (now s) = now s + d).
  { unfold Set_expiration, Set_duration, DefaultExpiration.
    destruct (d =? 0) eqn:H0; [apply Z.eqb_eq in H0; lia|].
    destruct (d >? 0) eqn:Hgt; [apply wrap64_id, Hr|].
    rewrite Z.gtb_ltb in Hgt. apply Z.ltb_ge in Hgt. lia. }
  assert (Hclk : after_Set_clock d s = set_ticks (S (ticks s)) s).
  { unfold after_Set_clock, Set_duration, DefaultExpiration.
    destruct (d =? 0) eqn:H0; [apply Z.eqb_eq in H0; lia|].
    destruct (d >? 0) eqn:Hgt; [reflexivity|].
    rewrite Z.gtb_ltb in Hgt. apply Z.ltb_ge in Hgt. lia. }
  pose proof (Cache_Set_run k v d s Hmu) as HS. rewrite He, Hclk in HS.
  set (item := mkItem v (now s + d)) in *.
  set (s1 := set_items (<[k:=item]> (items (self s)))
                       (set_ticks (S (ticks s)) s)) in *.
  assert (Hmu1 : mu (self s1) = unlocked) by exact Hmu.
  pose proof (sweeper_passes_run n s1 Hmu1) as HP.
  set (m2 := filter _ (items (self s1))) in *.
  set (s2 := set_items m2 (set_ticks (ticks s1 + n) s1)) in *.
  assert (Hw2 : writer (mu (self s2)) = false)
    by (cbn; rewrite Hmu; reflexivity).
  pose proof (Cache_Get_run k s2 Hw2) as HG.
  eexists s1, s2, _, _. split; [exact HS|]. split; [exact HP|].
  split; [exact HG|].
  assert (Hnow2 : now s2 = clock s (S (ticks s) + n)) by reflexivity.
  change (items (self s2)) with m2. split.
  - intros Hle.
    assert (Hkept : m2 !! k = Some item).
    { apply map_lookup_filter_Some. split; [apply lookup_insert_eq|].
      cbn [snd]. apply swept_by_false. intros i Hi.
      change (clock s1) with (clock s). change (ticks s1) with (S (ticks s)) in Hi.
      cbn [Expiration item]. intros [Hpos Hlt].
      pose proof (Hmono i (S (ticks s) + n)%nat ltac:(lia)). lia. }
    rewrite Hkept. unfold lookup_result.
    replace (expired_at (now s2) item) with false; [reflexivity|].
    symmetry. apply expired_at_false. cbn [Expiration item]. lia.
  - intros Hlt. apply Get_not_found_if_expired. intros x Hx.
    apply map_lookup_filter_Some in Hx as [Hx _].
    change (items (self s1)) with (<[k:=item]> (items (self s))) in Hx.
    rewrite lookup_insert_eq in Hx. injection Hx as <-.
    apply expired_at_true. cbn [Expiration item]. lia.
Qed.

(** ** Save, then Load into a fresh store *)



End Properties.

(** * The properties at concrete inputs *)

Lemma map_to_list_range (m : gmap string (Item string)) :
  map_to_list m ≡ₚ map_to_list m.
Proof. reflexivity. Qed.

(** C2 at [Add("a", "x", NoExpiration)] on an empty store: the call parks
    with the mutex held. *)
Lemma Add_Replace_hold_lock_across_Set_witness :
  mu (self (Example.world ∅ 5)) = unlocked ∧
  ∃ s', Cache_Add "a" (Some "x"%string) NoExpiration (Example.world ∅ 5)
        = Block s' ∧ mu (self s') = locked.
Proof.
  split; [reflexivity|].
  destruct (Add_Replace_hold_lock_across_Set Example.registrable
              Example.encode Example.decode map_to_list
              "a" (Some "x"%string) NoExpiration (Example.world ∅ 5) eq_refl)
    as (r & s1 & s' & Hget & Hmu & _ & _ & _ & _ & Hself & HA & _ & _).
  exists s'. split.
  - apply HA. vm_compute in Hget. injection Hget as <- _. reflexivity.
  - rewrite Hself. exact Hmu.
Defined.

(** C5 at its failing input: [Add("a", "x", NoExpiration)] on an empty
    store does not return nil; it parks in [Set] with the mutex held and
    the store still empty. *)
Lemma Add_duplicate_or_parks_witness :
  mu (self (Example.world ∅ 5)) = unlocked ∧
  ∃ s', Cache_Add "a" (Some "x"%string) NoExpiration (Example.world ∅ 5)
        = Block s' ∧
    mu (self s') = locked ∧ items (self s') = ∅.
Proof.
  split; [reflexivity|].
  destruct (Add_duplicate_or_parks "a" (Some "x"%string) NoExpiration
              (Example.world ∅ 5) eq_refl) as [_ Hparks].
  apply Hparks. intros item Hk. discriminate Hk.
Defined.

(** C6 at its failing input: [Replace("a", "y", NoExpiration)] on a store
    whose entry for "a" expires at 10, when the clock reads 5, does not
    return nil; it parks in [Set] with the mutex held and the entry as it
    was. *)
Lemma Replace_missing_or_parks_witness :
  mu (self (Example.world Example.expiring_entry 5)) = unlocked ∧
  ∃ s', Cache_Replace "a" (Some "y"%string) NoExpiration
          (Example.world Example.expiring_entry 5) = Block s' ∧
    mu (self s') = locked ∧
    items (self s') !! "a"%string = Some (mkItem (Some "x"%string) 10).
Proof.
  split; [reflexivity|].
  destruct (Replace_missing_or_parks "a" (Some "y"%string) NoExpiration
              (Example.world Example.expiring_entry 5) eq_refl)
    as [_ Hparks].
  destruct (Hparks (mkItem (Some "x"%string) 10) eq_refl eq_refl)
    as (s' & Hrun & Hmu & Hit).
  exists s'. split; [exact Hrun|]. split; [exact Hmu|].
  rewrite Hit. reflexivity.
Defined.

(** C7 at [Set("a", "x", 50)] when the clock reads 100: the entry expires
    at 150. *)
Lemma Set_stores_expiration_witness :
  mu (self (Example.world ∅ 100)) = unlocked ∧
  ∃ s', Cache_Set "a" (Some "x"%string) 50 (Example.world ∅ 100) = Ret tt s' ∧
    items (self s') !! "a"%string = Some (mkItem (Some "x"%string) 150).
Proof.
  split; [reflexivity|].
  destruct (Set_stores_expiration "a" (Some "x"%string) 50
              (Example.world ∅ 100) eq_refl)
    as (e & s' & Hrun & Hit & _ & _ & _ & He & _).
  exists s'. split; [exact Hrun|].
  rewrite Hit, He; [apply lookup_insert_eq|lia|vm_compute; split; discriminate].
Defined.

(** C7 fails as stated: with the clock at 1.8e18 ns (the year 2027) and
    the valid positive duration d = 8e18 ns, [Set] stores the wrapped sum
    -8646744073709551616, not the clock reading plus d. *)
Lemma Set_expiration_overflow_counterexample :
  let s := Example.world ∅ 1800000000000000000 in
  let d := 8000000000000000000 in
  d > 0 ∧ is_int64 d ∧ is_int64 (now s) ∧ mu (self s) = unlocked ∧
  ∃ s', Cache_Set "a" (Some "x"%string) d s = Ret tt s' ∧
    items (self s') !! "a"%string =
      Some (mkItem (Some "x"%string) (-8646744073709551616)) ∧
    -8646744073709551616 ≠ now s + d.
Proof.
  cbv zeta. split; [reflexivity|].
  split; [vm_compute; split; discriminate|].
  split; [vm_compute; split; discriminate|].
  split; [reflexivity|].
  eexists. split; [reflexivity|]. split; [vm_compute; reflexivity|].
  vm_compute. discriminate.
Qed.

(** C8 at its failing input: the store holds "a" with the expiration -5
    and the clock reads 20. [Expired] returns true for that entry and
    [Get] does not find it, although its expiration is not positive; a
    pass of [DeleteExpired], which tests "expiration > 0 and
    now > expiration", keeps it, and [Count] counts it. *)
Lemma Item_Expired_nonzero_and_past_witness :
  let item := mkItem (Some "x"%string) (-5) in
  let s := Example.world Example2.negative_entry 20 in
  items (self s) !! "a"%string = Some item ∧
  (∃ s', Item_Expired item s = Ret true s') ∧
  ¬ (Expiration item > 0 ∧ now s > Expiration item) ∧
  (∃ s', Cache_Get "a" s = Ret (None, false) s') ∧
  ∃ s', Cache_DeleteExpired map_to_list s = Ret tt s' ∧
    items (self s') !! "a"%string = Some item ∧
    Cache_Count s' = Ret 1 s'.
Proof.
  cbv zeta. split; [reflexivity|]. split.
  - destruct (Item_Expired_nonzero_and_past (mkItem (Some "x"%string) (-5))
                (Example.world Example2.negative_entry 20))
      as (b & s' & Hrun & _ & Hiff & _).
    exists s'. rewrite Hrun. f_equal. apply Hiff. simpl. lia.
  - split; [simpl; lia|]. split; [eexists; vm_compute; reflexivity|].
    eexists. split; [vm_compute; reflexivity|].
    split; vm_compute; reflexivity.
Defined.

(** C9 at [Get("a")] when the entry of "a" expired at 10 and the clock
    reads 20: not found, the entry is still in the map and [Count] still
    counts it. *)
Lemma Get_not_found_and_frame_witness :
  writer (mu (self (Example.world Example.expiring_entry 20))) = false ∧
  ∃ s', Cache_Get "a" (Example.world Example.expiring_entry 20)
        = Ret (None, false) s' ∧
    items (self s') !! "a"%string = Some (mkItem (Some "x"%string) 10) ∧
    (∃ s2, Cache_Count s' = Ret 1 s2).
Proof.
  split; [reflexivity|].
  destruct (Get_not_found_and_frame "a"
              (Example.world Example.expiring_entry 20) eq_refl)
    as (r & s' & n & Hrun & Hself & _ & _ & Hexp & _ & _ & Hcount & Hn).
  exists s'. split; [|split].
  - rewrite Hrun. f_equal.
    apply (Hexp (mkItem (Some "x"%string) 10)); [reflexivity| |]; simpl; lia.
  - rewrite Hself. reflexivity.
  - subst n. exact Hcount.
Defined.

(** C10 at a pass when the clock reads 20 over entries expiring at 10,
    never, and at 30: the first is gone, the others stay, [Count] is 2. *)
Lemma DeleteExpired_removes_positive_past_witness :
  mu (self (Example.world Example.three_entries 20)) = unlocked ∧
  ∃ s', Cache_DeleteExpired map_to_list
          (Example.world Example.three_entries 20) = Ret tt s' ∧
    items (self s') !! "a"%string = None ∧
    items (self s') !! "b"%string = Some (mkItem (Some "y"%string) 0) ∧
    items (self s') !! "c"%string = Some (mkItem (Some "z"%string) 30) ∧
    Cache_Count s' = Ret 2 s'.
Proof.
  split; [reflexivity|].
  destruct (DeleteExpired_removes_positive_past map_to_list map_to_list_range
              (Example.world Example.three_entries 20) eq_refl)
    as (s' & Hrun & _ & Hit & Hgone & Hkept & _ & Hcount & _).
  exists s'. split; [exact Hrun|].
  split; [apply (Hgone "a"%string (mkItem (Some "x"%string) 10));
          [reflexivity|simpl; lia|simpl; lia]|].
  split; [apply (Hkept "b"%string (mkItem (Some "y"%string) 0));
          [reflexivity|simpl; lia]|].
  split; [apply (Hkept "c"%string (mkItem (Some "z"%string) 30));
          [reflexivity|simpl; lia]|].
  rewrite Hcount, Hit. reflexivity.
Defined.

(** C3 at its failing input: the store holds "a" with the value "x" and
    the expiration -5, the clock reads 20, and the stream holds "a" with
    the value "y". The entry is live by "expiration > 0 and
    now > expiration", yet [Load] replaces it. *)
Lemma Load_merges_absent_or_expired_witness :
  let ov := mkItem (Some "x"%string) (-5) in
  let s := Example.world Example2.negative_entry 20 in
  items (self s) !! "a"%string = Some ov ∧
  ¬ (Expiration ov > 0 ∧ now s > Expiration ov) ∧
  ∃ s', Cache_Load Example.decode map_to_list
          (Example.encode Example.loaded_entry).1 s = Ret None s' ∧
    items (self s') !! "a"%string = Some (mkItem (Some "y"%string) 0).
Proof.
  cbv zeta. split; [reflexivity|]. split; [simpl; lia|].
  destruct (Load_merges_absent_or_expired Example.decode map_to_list
              map_to_list_range (Example.encode Example.loaded_entry).1
              (Example.world Example2.negative_entry 20)) as [_ Hok].
  destruct (Hok Example.loaded_entry) as (s' & Hrun & _ & _ & Hm);
    [vm_compute; reflexivity|reflexivity|].
  exists s'. split; [exact Hrun|].
  specialize (Hm "a"%string).
  change (Example.loaded_entry !! "a"%string)
    with (Some (mkItem (Some "y"%string) 0)) in Hm.
  change (items (self (Example.world Example2.negative_entry 20))
            !! "a"%string)
    with (Some (mkItem (Some "x"%string) (-5))) in Hm.
  cbv beta iota in Hm. destruct Hm as (i & _ & Hm). exact Hm.
Defined.



(** C1 at its failing input: after [SaveToFile("cache.gob")] on a store of
    two entries the file is empty, while the stream [Save] writes for that
    store is not. *)
Lemma SaveToFile_leaves_file_empty_witness :
  let s := Example.world Example.two_entries 5 in
  os_err s (OsCreate "cache.gob") = None ∧
  (∃ s', Cache_SaveToFile "cache.gob" s = Ret None s' ∧
     files s' !! "cache.gob"%string = Some []) ∧
  ∃ out, Cache_Save Example.registrable Example.encode map_to_list s
         = Ret (out, None) s ∧ out ≠ [].
Proof.
  cbv zeta. split; [reflexivity|]. split.
  - destruct (SaveToFile_leaves_file_empty "cache.gob"
                (Example.world Example.two_entries 5) eq_refl)
      as (s' & Hrun & Hfile & _).
    exists s'. split; [exact Hrun|exact Hfile].
  - eexists. split; [vm_compute; reflexivity|]. discriminate.
Defined.

(** * The demonstration program *)

Section SampleProperties.

Variable range_order :
  gmap string (Item string) -> list (string * Item string).
Hypothesis range_order_perm :
  forall m : gmap string (Item string), range_order m ≡ₚ map_to_list m.

(** X18. [main] prints "found k1: hello ,I am pasca" and then
    "not found k1", however many passes the sweeper makes at each point,
    provided the clock does not go backwards, reads a time that is not
    negative for [Set] (with room for 5 s in an [int64]), reads at most
    5 s more for the first [Get] and more than 5 s more for the second,
    as after the sleep of 10 s. *)
Theorem main_prints_found_then_not_found (n0 n1 n2 : nat) (s : World string) :
  let t_set := clock s (ticks s + n0) in
  let t_get1 := clock s (ticks s + n0 + 1 + n1) in
  let t_get2 := clock s (ticks s + n0 + 1 + n1 + 1 + n2) in
  (∀ i j, (i <= j)%nat -> clock s i <= clock s j) ->
  0 <= t_set ->
  is_int64 (t_set + Sample.five_seconds) ->
  t_get1 <= t_set + Sample.five_seconds ->
  t_set + Sample.five_seconds < t_get2 ->
  ∃ s', Sample.main range_order n0 n1 n2 s =
        Ret ["found k1: hello ,I am pasca"; "not found k1"]%string s'.
Proof.
  intros t_set t_get1 t_get2 Hmono Hpos Hr Hg1 Hg2.
  unfold Sample.main. unfold bind at 1.
  set (s0 := set_self (NewCache Sample.half_hour Sample.three_seconds) s).
  (* the passes before Set *)
  unfold bind at 1.
  rewrite (sweeper_passes_run range_order range_order_perm n0 s0 eq_refl).
  change (items (self s0)) with (∅ : gmap string (Item string)).
  rewrite map_filter_empty.
  set (sA := set_items ∅ (set_ticks (ticks s0 + n0) s0)).
  (* Set *)
  unfold bind at 1. rewrite (Cache_Set_run "k1" (Some Sample.k1) Sample.five_seconds sA eq_refl).
  assert (He : Set_expiration (self sA) Sample.five_seconds (now sA)
               = t_set + Sample.five_seconds).
  { unfold Set_expiration, Set_duration. cbn [Z.eqb Z.gtb Z.compare Sample.five_seconds DefaultExpiration].
    apply wrap64_id. exact Hr. }
  rewrite He.
  set (item := mkItem (Some Sample.k1) (t_set + Sample.five_seconds)).
  change (after_Set_clock Sample.five_seconds sA) with (set_ticks (S (ticks sA)) sA).
  set (sB := set_items (<["k1"%string := item]> (items (self sA))) (set_ticks (S (ticks sA)) sA)).
  (* the passes between Set and the first Get *)
  unfold bind at 1.
  rewrite (sweeper_passes_run range_order range_order_perm n1 sB eq_refl).
  set (mC := filter _ (items (self sB))).
  set (sC := set_items mC (set_ticks (ticks sB + n1) sB)).
  assert (HmC : mC !! "k1"%string = Some item).
  { apply map_lookup_filter_Some. split; [apply lookup_insert_eq|].
    cbn [snd]. apply swept_by_false. intros i Hi.
    change (clock sB) with (clock s). change (ticks sB) with (S (ticks s + n0)) in Hi.
    cbn [Expiration item]. intros [_ Hlt].
    pose proof (Hmono i (ticks s + n0 + 1 + n1)%nat ltac:(lia)).
    subst t_get1. lia. }
  unfold bind at 1. rewrite (Cache_Get_run "k1" sC eq_refl).
  change (items (self sC)) with mC. rewrite HmC.
  assert (HnowC : now sC = t_get1).
  { subst t_get1. unfold now. cbn. f_equal. lia. }
  unfold lookup_result. rewrite HnowC.
  assert (Hlive : expired_at t_get1 item = false).
  { apply expired_at_false. cbn [Expiration item]. right. lia. }
  rewrite Hlive. cbn [fst snd Object item].
  assert (Hnz : (t_set + Sample.five_seconds =? 0) = false).
  { apply Z.eqb_neq. unfold Sample.five_seconds. lia. }
  unfold after_Expired. cbn [Expiration item]. rewrite Hnz.
  set (sD := set_ticks (S (ticks sC)) sC).
  (* the passes while main sleeps *)
  unfold bind at 1.
  rewrite (sweeper_passes_run range_order range_order_perm n2 sD eq_refl).
  set (mE := filter _ (items (self sD))).
  set (sE := set_items mE (set_ticks (ticks sD + n2) sD)).
  unfold bind at 1. rewrite (Cache_Get_run "k1" sE eq_refl).
  assert (HnowE : now sE = t_get2).
  { subst t_get2. unfold now. cbn. f_equal. lia. }
  rewrite HnowE.
  rewrite Get_not_found_if_expired.
  - cbn [snd]. eexists. reflexivity.
  - intros x Hx. change (items (self sE)) with mE in Hx.
    apply map_lookup_filter_Some in Hx as [Hx _].
    change (items (self sD)) with mC in Hx. rewrite HmC in Hx.
    injection Hx as <-. apply expired_at_true. cbn [Expiration item].
    unfold Sample.five_seconds in *. lia.
Qed.

End SampleProperties.

(** * The further properties at concrete inputs *)

(** X1 at [Delete("a")] on a store whose only entry is that of "a". *)
Lemma Delete_removes_only_its_key_witness :
  mu (self (Example.world Example.expiring_entry 5)) = unlocked ∧
  ∃ s', Cache_Delete "a" (Example.world Example.expiring_entry 5)
        = Ret tt s' ∧
    items (self s') !! "a"%string = None ∧
    Cache_Get "a" s' = Ret (None, false) s'.
Proof.
  split; [reflexivity|].
  destruct (Delete_removes_only_its_key "a"
              (Example.world Example.expiring_entry 5) eq_refl)
    as (s' & Hrun & _ & Hk & _ & _ & _ & _ & Hg).
  exists s'. split; [exact Hrun|]. split; [exact Hk|exact Hg].
Defined.

(** X2 at [Flush()] on a store of three entries. *)
Lemma Flush_empties_store_witness :
  mu (self (Example.world Example.three_entries 5)) = unlocked ∧
  ∃ s', Cache_Flush (Example.world Example.three_entries 5) = Ret tt s' ∧
    Cache_Count s' = Ret 0 s' ∧
    Cache_Get "b" s' = Ret (None, false) s'.
Proof.
  split; [reflexivity|].
  destruct (Flush_empties_store (Example.world Example.three_entries 5)
              eq_refl) as (s' & Hrun & _ & Hc & Hg).
  exists s'. split; [exact Hrun|]. split; [exact Hc|apply Hg].
Defined.

(** X3 at [Set("a", "x", 50)] when the clock reads 100: [Get("a")]
    finds "x" when the clock reads 150 and nothing when it reads 151. *)
Lemma Set_then_Get_witness :
  mu (self (Example.world ∅ 100)) = unlocked ∧
  ∃ s1, Cache_Set "a" (Some "x"%string) 50 (Example.world ∅ 100)
        = Ret tt s1 ∧
    (∃ s3, Cache_Get "a" (Example2.at_time 150 s1)
           = Ret (Some "x"%string, true) s3) ∧
    (∃ s3, Cache_Get "a" (Example2.at_time 151 s1) = Ret (None, false) s3).
Proof.
  split; [reflexivity|].
  destruct (Set_then_Get "a" (Some "x"%string) 50 (Example.world ∅ 100)
              eq_refl) as (s1 & Hrun & Hget).
  exists s1. split; [exact Hrun|]. split.
  - destruct (Hget (Example2.at_time 150 s1) eq_refl)
      as (r & s3 & HG & _ & Hpos).
    destruct Hpos as (Hfound & _ & _);
      [lia|vm_compute; split; discriminate|].
    exists s3. rewrite HG, Hfound; [reflexivity|]. vm_compute. discriminate.
  - destruct (Hget (Example2.at_time 151 s1) eq_refl)
      as (r & s3 & HG & _ & Hpos).
    destruct Hpos as (_ & Hgone & _);
      [lia|vm_compute; split; discriminate|].
    exists s3. rewrite HG, Hgone; [reflexivity|reflexivity|].
    vm_compute. discriminate.
Defined.

(** X4 at [Set("a", "x", DefaultExpiration)] on a store whose default is
    0: the entry never expires. *)
Lemma Set_effective_duration_witness :
  mu (self (Example.world ∅ 100)) = unlocked ∧
  ∃ s', Cache_Set "a" (Some "x"%string) DefaultExpiration
          (Example.world ∅ 100) = Ret tt s' ∧
    items (self s') !! "a"%string = Some (mkItem (Some "x"%string) 0).
Proof.
  split; [reflexivity|].
  destruct (Set_effective_duration "a" (Some "x"%string) DefaultExpiration
              (Example.world ∅ 100) eq_refl)
    as (e & s' & Hrun & Hk & _ & _ & H0 & _).
  exists s'. split; [exact Hrun|].
  rewrite Hk, H0; [reflexivity|reflexivity|]. simpl. lia.
Defined.

(** X5 at [Set("b", "y", NoExpiration)] on a store of one entry. *)
Lemma Set_Count_witness :
  mu (self (Example.world Example.expiring_entry 5)) = unlocked ∧
  ∃ s', Cache_Set "b" (Some "y"%string) NoExpiration
          (Example.world Example.expiring_entry 5) = Ret tt s' ∧
    Cache_Count s' = Ret 2 s'.
Proof.
  split; [reflexivity|].
  destruct (Set_Count "b" (Some "y"%string) NoExpiration
              (Example.world Example.expiring_entry 5) eq_refl)
    as (s' & Hrun & Hnew & _).
  exists s'. split; [exact Hrun|]. apply Hnew. reflexivity.
Defined.

(** X6 at [Set("b", ...)] then [Delete("b")] on a store without "b". *)
Lemma Set_then_Delete_witness :
  mu (self (Example.world Example.expiring_entry 5)) = unlocked ∧
  Example.expiring_entry !! "b"%string = None ∧
  ∃ s1 s2, Cache_Set "b" (Some "y"%string) 50
             (Example.world Example.expiring_entry 5) = Ret tt s1 ∧
    Cache_Delete "b" s1 = Ret tt s2 ∧
    items (self s2) = Example.expiring_entry.
Proof.
  split; [reflexivity|]. split; [reflexivity|].
  destruct (Set_then_Delete "b" (Some "y"%string) 50
              (Example.world Example.expiring_entry 5) eq_refl eq_refl)
    as (s1 & s2 & HS & HD & Hself).
  exists s1, s2. split; [exact HS|]. split; [exact HD|].
  rewrite Hself. reflexivity.
Defined.

(** X7 at a pass when the clock reads 20 over entries expiring at 10,
    never, and at 30: [Get("a")] when the clock reads 25 reports the same
    before and after the pass. *)
Lemma DeleteExpired_invisible_to_Get_witness :
  mu (self (Example.world Example.three_entries 20)) = unlocked ∧
  ∃ s1, Cache_DeleteExpired map_to_list
          (Example.world Example.three_entries 20) = Ret tt s1 ∧
    ∃ r sa' sb',
      Cache_Get "a" (Example2.at_time 25
                       (Example.world Example.three_entries 20))
      = Ret r sa' ∧
      Cache_Get "a" (Example2.at_time 25 s1) = Ret r sb'.
Proof.
  split; [reflexivity|].
  destruct (DeleteExpired_invisible_to_Get map_to_list map_to_list_range "a"
              (Example.world Example.three_entries 20) eq_refl)
    as (s1 & Hrun & Hsame).
  exists s1. split; [exact Hrun|].
  apply Hsame; [reflexivity|reflexivity|reflexivity|].
  vm_compute. discriminate.
Defined.

(** X8 at two passes on a clock that stays at 20: the second removes
    nothing. *)
Lemma DeleteExpired_twice_witness :
  mu (self (Example.world Example.three_entries 20)) = unlocked ∧
  ∃ s1 s2, Cache_DeleteExpired map_to_list
             (Example.world Example.three_entries 20) = Ret tt s1 ∧
    Cache_DeleteExpired map_to_list s1 = Ret tt s2 ∧
    self s2 = self s1.
Proof.
  split; [reflexivity|].
  destruct (DeleteExpired_twice map_to_list map_to_list_range
              (Example.world Example.three_entries 20) eq_refl)
    as (s1 & s2 & H1 & H2 & _ & Hsame).
  exists s1, s2. split; [exact H1|]. split; [exact H2|].
  apply Hsame. apply Z.eq_le_incl.
  vm_compute in H1. injection H1 as <-. reflexivity.
Defined.

(** X9 at two ticks and the stop value, with the clock at 20, over
    entries expiring at 10, never, and at 30; a further tick after the
    stop value is not served. *)
Lemma gcLoop_sweeps_until_stop_witness :
  gcInterval (self (Example2.sweeping_world Example.three_entries 20)) > 0 ∧
  mu (self (Example2.sweeping_world Example.three_entries 20)) = unlocked ∧
  ∃ s', Cache_gcLoop map_to_list [Tick; Tick; Stop; Tick]
          (Example2.sweeping_world Example.three_entries 20) = Ret tt s' ∧
    ticks s' = 2%nat ∧
    items (self s') !! "b"%string = Some (mkItem (Some "y"%string) 0).
Proof.
  split; [reflexivity|]. split; [reflexivity|].
  destruct (gcLoop_sweeps_until_stop map_to_list map_to_list_range 2 [Tick]
              (Example2.sweeping_world Example.three_entries 20))
    as [_ Hloop].
  destruct (Hloop eq_refl eq_refl) as (s' & Hrun & _ & _ & Hticks & Hit).
  exists s'. split; [exact Hrun|]. split; [exact Hticks|].
  apply Hit. split; [reflexivity|]. intros i _. simpl. lia.
Defined.

(** X10 at [Add("a", "x", NoExpiration)] on an empty store followed by a
    tick of the sweeper. *)
Lemma sweeper_parks_after_Add_witness :
  mu (self (Example.world ∅ 5)) = unlocked ∧
  ∃ s1 s2, Cache_Add "a" (Some "x"%string) NoExpiration (Example.world ∅ 5)
           = Block s1 ∧
    gcLoop_select map_to_list [Tick; Stop] s1 = Block s2 ∧
    self s2 = self s1.
Proof.
  split; [reflexivity|].
  destruct (sweeper_parks_after_Add map_to_list "a" (Some "x"%string)
              NoExpiration [Stop] (Example.world ∅ 5) eq_refl)
    as (s1 & s2 & HA & HG & Hself & _).
  - intros item Hk. discriminate Hk.
  - exists s1, s2. split; [exact HA|]. split; [exact HG|exact Hself].
Defined.

(** X11 at a store whose only value is the nil interface, which
    [gob.Register] refuses. *)
Lemma Save_recovers_and_frames_witness :
  writer (mu (self (Example.world Example2.nil_entry 5))) = false ∧
  Cache_Save Example.registrable Example.encode map_to_list
    (Example.world Example2.nil_entry 5)
  = Ret ([], Some ErrGobRegister) (Example.world Example2.nil_entry 5).
Proof.
  split; [reflexivity|].
  destruct (Save_recovers_and_frames Example.registrable Example.encode
              map_to_list map_to_list_range
              (Example.world Example2.nil_entry 5) eq_refl)
    as (r & Hrun & Hpanic & _).
  rewrite Hrun, Hpanic; [reflexivity|].
  exists "a"%string, (mkItem None 0). split; reflexivity.
Defined.

(** X12 at [Load] of a stream that holds "a" into a store that holds
    "a": one key before, one key after. *)
Lemma Load_keeps_every_key_witness :
  Example.decode (Example.encode Example.loaded_entry).1
  = inl Example.loaded_entry ∧
  mu (self (Example.world Example.expiring_entry 20)) = unlocked ∧
  ∃ s', Cache_Load Example.decode map_to_list
          (Example.encode Example.loaded_entry).1
          (Example.world Example.expiring_entry 20) = Ret None s' ∧
    dom (items (self s')) = dom Example.expiring_entry ∪ dom Example.loaded_entry.
Proof.
  assert (Hdec : Example.decode (Example.encode Example.loaded_entry).1
                 = inl Example.loaded_entry) by (vm_compute; reflexivity).
  split; [exact Hdec|]. split; [reflexivity|].
  destruct (Load_keeps_every_key Example.decode map_to_list
              map_to_list_range _ _
              (Example.world Example.expiring_entry 20) Hdec eq_refl)
    as (s' & Hrun & Hdom & _).
  exists s'. split; [exact Hrun|exact Hdom].
Defined.

(** X14 at [LoadFile("cache.gob")] into an empty store, the file holding
    the encoding of two entries. *)
Lemma LoadFile_is_Load_of_contents_witness :
  os_err Example2.world_with_file (OsOpen "cache.gob") = None ∧
  files Example2.world_with_file !! "cache.gob"%string
  = Some (Example.encode Example.two_entries).1 ∧
  Example.decode (Example.encode Example.two_entries).1
  = inl Example.two_entries ∧
  mu (self Example2.world_with_file) = unlocked ∧
  ∃ s1, Cache_LoadFile Example.decode map_to_list "cache.gob"
          Example2.world_with_file = Ret None s1 ∧
    Cache_Load Example.decode map_to_list
      (Example.encode Example.two_entries).1 Example2.world_with_file
    = Ret None s1.
Proof.
  assert (Hdec : Example.decode (Example.encode Example.two_entries).1
                 = inl Example.two_entries) by (vm_compute; reflexivity).
  assert (Hf : files Example2.world_with_file !! "cache.gob"%string
               = Some (Example.encode Example.two_entries).1)
    by apply lookup_singleton_eq.
  split; [reflexivity|]. split; [exact Hf|]. split; [exact Hdec|].
  split; [reflexivity|].
  destruct (LoadFile_is_Load_of_contents Example.decode map_to_list
              map_to_list_range "cache.gob" _ _
              Example2.world_with_file eq_refl Hf Hdec eq_refl)
    as (s1 & Hload & Hfile).
  exists s1. split; [exact Hfile|exact Hload].
Defined.

(** X15 at [SaveToFile("cache.gob")] then [LoadFile("cache.gob")] on a
    store of two entries: the decoder rejects the empty file. *)
Lemma SaveToFile_then_LoadFile_witness :
  os_err (Example.world Example.two_entries 5) (OsCreate "cache.gob") = None ∧
  os_err (Example.world Example.two_entries 5) (OsOpen "cache.gob") = None ∧
  Example.decode [] = inr (GobError 2) ∧
  ∃ s1 s2, Cache_SaveToFile "cache.gob" (Example.world Example.two_entries 5)
           = Ret None s1 ∧
    Cache_LoadFile Example.decode map_to_list "cache.gob" s1
    = Ret (Some (GobError 2)) s2 ∧
    items (self s2) = Example.two_entries.
Proof.
  split; [reflexivity|]. split; [reflexivity|]. split; [reflexivity|].
  destruct (SaveToFile_then_LoadFile Example.decode map_to_list "cache.gob"
              (GobError 2) (Example.world Example.two_entries 5)
              eq_refl eq_refl eq_refl)
    as (s1 & s2 & HS & HL & Hself & _).
  exists s1, s2. split; [exact HS|]. split; [exact HL|].
  rewrite Hself. reflexivity.
Defined.

(** X16 at [Get("a")] on a store that two readers hold. *)
Lemma calls_leave_mutex_and_durations_witness :
  let s := set_mu (mkRWMutex false 2)
             (Example.world Example.expiring_entry 20) in
  ∃ s', call Example.registrable Example.encode Example.decode map_to_list
          (CallGet "a") s = Ret tt s' ∧
    mu (self s') = mkRWMutex false 2.
Proof.
  cbv zeta. eexists. split; [reflexivity|].
  apply (calls_leave_mutex_and_durations Example.registrable Example.encode
           Example.decode map_to_list map_to_list_range (CallGet "a")
           (set_mu (mkRWMutex false 2)
              (Example.world Example.expiring_entry 20))).
  reflexivity.
Defined.

(** X17 at [Set("a", "x", 50)] when the clock reads 100 and stays there,
    followed by three passes of the sweeper. *)
Lemma Set_sweeps_Get_witness :
  mu (self (Example.world ∅ 100)) = unlocked ∧
  ∃ s1 s2 s3,
    Cache_Set "a" (Some "x"%string) 50 (Example.world ∅ 100) = Ret tt s1 ∧
    sweeper_passes map_to_list 3 s1 = Ret tt s2 ∧
    Cache_Get "a" s2 = Ret (Some "x"%string, true) s3.
Proof.
  split; [reflexivity|].
  destruct (Set_sweeps_Get map_to_list map_to_list_range "a"
              (Some "x"%string) 50 3 (Example.world ∅ 100) eq_refl)
    as (s1 & s2 & r & s3 & HS & HP & HG & Hfound & _).
  - reflexivity.
  - vm_compute. split; discriminate.
  - vm_compute. discriminate.
  - intros i j _. simpl. lia.
  - exists s1, s2, s3. split; [exact HS|]. split; [exact HP|].
    rewrite HG, Hfound; [reflexivity|].
    vm_compute in HS. injection HS as <-.
    vm_compute in HP. injection HP as <-.
    vm_compute. discriminate.
Defined.

(** X18 on a clock that advances 4 s per reading, with three passes of
    the sweeper while [main] sleeps. *)
Lemma main_prints_found_then_not_found_witness :
  ∃ s', Sample.main map_to_list 0 0 3 Sample.world =
        Ret ["found k1: hello ,I am pasca"; "not found k1"]%string s'.
Proof.
  apply (main_prints_found_then_not_found map_to_list map_to_list_range
           0 0 3 Sample.world).
  - intros i j Hij. cbn [clock Sample.world]. unfold Sample.ticking_clock.
    lia.
  - vm_compute. discriminate.
  - vm_compute. split; discriminate.
  - vm_compute. discriminate.
  - vm_compute. reflexivity.
Defined.
